(** * ProjetoFinal: a melody player for the Raspberry Pi Pico

    A shallow embedding of the interrupt dispatch layer
    ([gpio_irq_manager.c]), the joystick range mapping ([JoystickPi.c]),
    the PWM wrap computation ([BuzzerPi.c]) and the playback state machine
    ([GENIUS.c]), followed by the properties established about them.

    Conventions.  C integers are modelled as [Z]; every conversion to a
    fixed-width type is written out ([to_uint32], [to_int16], ...).  The C
    [float] is IEEE-754 binary32, modelled with the parametric
    specification of the standard library ([SpecFloat], precision 24,
    [emax] 128).  A read or write of a C array is partial: outside the
    array it yields [None], and every function that touches an array
    returns an [option]. *)

From Stdlib Require Import ZArith QArith Lia Bool String List.
From Stdlib Require Import Floats.SpecFloat.
From stdpp Require Import base tactics option list.

Local Open Scope Z_scope.

(** ** Fixed-width integers *)

Module CInt.

Definition to_uint16 (z : Z) : Z := z mod 2 ^ 16.
Definition to_uint32 (z : Z) : Z := z mod 2 ^ 32.
Definition to_uint64 (z : Z) : Z := z mod 2 ^ 64.

(** Two's complement reading of the low bits. *)
Definition to_int16 (z : Z) : Z := (z + 2 ^ 15) mod 2 ^ 16 - 2 ^ 15.
Definition to_int32 (z : Z) : Z := (z + 2 ^ 31) mod 2 ^ 32 - 2 ^ 31.
Definition to_int64 (z : Z) : Z := (z + 2 ^ 63) mod 2 ^ 64 - 2 ^ 63.

Definition INT32_MIN : Z := - 2 ^ 31.
Definition INT32_MAX : Z := 2 ^ 31 - 1.
Definition UINT32_MAX : Z := 2 ^ 32 - 1.
Definition INT64_MAX : Z := 2 ^ 63 - 1.

Definition is_int16 (z : Z) : Prop := - 2 ^ 15 <= z < 2 ^ 15.
Definition is_int32 (z : Z) : Prop := INT32_MIN <= z <= INT32_MAX.
Definition is_uint32 (z : Z) : Prop := 0 <= z <= UINT32_MAX.

End CInt.

(** ** C arrays *)

Module CArray.

(** [a[i]] as an rvalue. *)
Definition get {A : Type} (a : list A) (i : Z) : option A :=
  if 0 <=? i then a !! Z.to_nat i else None.

(** [a[i] = v]. *)
Definition set {A : Type} (a : list A) (i : Z) (v : A) : option (list A) :=
  if (0 <=? i) && (i <? Z.of_nat (length a))
  then Some (<[Z.to_nat i := v]> a)
  else None.

End CArray.

(** ** Single-precision floating point *)

Module Float32.

Definition prec : Z := 24.
Definition emax : Z := 128.

Definition of_Z (z : Z) : spec_float := binary_normalize prec emax z 0 false.

Definition add : spec_float -> spec_float -> spec_float := SFadd prec emax.
Definition sub : spec_float -> spec_float -> spec_float := SFsub prec emax.
Definition mul : spec_float -> spec_float -> spec_float := SFmul prec emax.
Definition div : spec_float -> spec_float -> spec_float := SFdiv prec emax.

(** The literal [0.5f]. *)
Definition half : spec_float := binary_normalize prec emax 1 (-1) false.

Definition is_negative (f : spec_float) : bool :=
  match f with
  | S754_zero s | S754_infinity s | S754_finite s _ _ => s
  | S754_nan => false
  end.

(** Magnitude of the integral part of a finite value: [m * 2^e] with the
    fraction discarded ([Z.shiftl] by a negative amount shifts right). *)
Definition trunc_abs (m : positive) (e : Z) : Z := Z.shiftl (Zpos m) e.

(** Conversion to [int]: the fraction is discarded (C11 6.3.1.4).  C
    leaves an out-of-range conversion undefined; the value written here
    is the one the RP2040 runtime gives, which saturates. *)
Definition to_int32 (f : spec_float) : Z :=
  match f with
  | S754_zero _ | S754_nan => 0
  | S754_infinity s => if s then CInt.INT32_MIN else CInt.INT32_MAX
  | S754_finite s m e =>
      let z := cond_Zopp s (trunc_abs m e) in
      Z.max CInt.INT32_MIN (Z.min CInt.INT32_MAX z)
  end.

(** Conversion to [uint32_t], with the same convention: a negative value
    gives 0 and a value above [UINT32_MAX] gives [UINT32_MAX]. *)
Definition to_uint32 (f : spec_float) : Z :=
  match f with
  | S754_zero _ | S754_nan => 0
  | S754_infinity s => if s then 0 else CInt.UINT32_MAX
  | S754_finite s m e =>
      if s then 0 else Z.min CInt.UINT32_MAX (trunc_abs m e)
  end.

Definition is_finite (f : spec_float) : bool :=
  match f with
  | S754_zero _ | S754_finite _ _ _ => true
  | S754_infinity _ | S754_nan => false
  end.

(** The rational a finite value denotes, [(-1)^s * m * 2^e]. *)
Definition to_Q (f : spec_float) : Q :=
  match f with
  | S754_finite s m e =>
      if 0 <=? e then inject_Z (cond_Zopp s (Zpos m * 2 ^ e))
      else Qmake (cond_Zopp s (Zpos m)) (Z.to_pos (2 ^ (- e)))
  | _ => 0%Q
  end.

(** Nearest integer, halves away from zero (C's [roundf]); used only to
    state what rounding would give. *)
Definition round_nearest (f : spec_float) : Z :=
  match f with
  | S754_finite s m e =>
      cond_Zopp s (Z.shiftl (2 * Zpos m * 2 ^ Z.max 0 e + 2 ^ Z.max 0 (- e))
                            (Z.min 0 e - 1))
  | _ => 0
  end.

End Float32.

(** ** The monotonic clock of the Pico SDK

    [absolute_time_t] is a 64-bit count of microseconds since boot. *)

Module PicoTime.

(** [absolute_time_diff_us(from, to)]: the signed 64-bit difference. *)
Definition absolute_time_diff_us (from to : Z) : Z := CInt.to_int64 (to - from).

(** [time_reached(t)] when the timer reads [now]. *)
Definition time_reached (now t : Z) : bool := t <=? now.

(** [delayed_by_ms(t, ms)]: a result beyond [INT64_MAX] is replaced by
    [INT64_MAX] ("at the end of time"). *)
Definition delayed_by_ms (t ms : Z) : Z :=
  let delayed := CInt.to_uint64 (t + ms * 1000) in
  if CInt.INT64_MAX <? delayed then CInt.INT64_MAX else delayed.

End PicoTime.

(** ** Checking a property on a range of integers *)

Module Exhaustive.

(** [p] holds of the [count] integers from [from] upwards. *)
Fixpoint all_from (count : nat) (from : Z) (p : Z -> bool) : bool :=
  match count with
  | O => true
  | S count' => p from && all_from count' (from + 1) p
  end.

End Exhaustive.

(** ** Configuration calls into the Pico SDK *)

Module PicoSdk.

(** Values of the SDK's constants. *)
Definition GPIO_IN : bool := false.
Definition GPIO_FUNC_PWM : Z := 4.
Definition GPIO_IRQ_EDGE_FALL : Z := 4.
Definition IO_IRQ_BANK0 : Z := 13.

(** The configuration calls the repository makes; [Gpio_set_irq_callback]
    is the one call there is, with [gpio_irq_handler] as its argument. *)
Inductive call : Type :=
| Adc_init
| Adc_gpio_init (gpio : Z)
| Gpio_init (gpio : Z)
| Gpio_set_dir (gpio : Z) (out : bool)
| Gpio_pull_up (gpio : Z)
| Gpio_set_function (gpio : Z) (fn : Z)
| Gpio_set_irq_callback
| Irq_set_enabled (num : Z) (enabled : bool)
| Gpio_set_irq_enabled (gpio event_mask : Z) (enabled : bool).

End PicoSdk.

(** ** gpio_irq_manager.c: the interrupt dispatch layer *)

Module GpioIrqManager.

Definition MAX_GPIO_PINS : Z := 30.
Definition DEBOUNCE_DELAY_MS : Z := 200.

Section Dispatch.

(** The type of the functions a [void ( * )(void)] may point to. *)
Context {fn : Type}.

(** What the layer does to the outside: calling a registered callback,
    and switching a pin's interrupt on or off. *)
Inductive effect : Type :=
| Invoke (callback : fn)
| Gpio_set_irq_enabled (gpio event_mask : Z) (enabled : bool).

(** The two global tables; a null pointer is [None]. *)
Record tables : Type := {
  callbacks : list (option fn);
  last_interrupt_time : list Z
}.

(** The tables as the C file declares and zero-initialises them. *)
Definition boot : tables :=
  {| callbacks := replicate (Z.to_nat MAX_GPIO_PINS) None;
     last_interrupt_time := replicate (Z.to_nat MAX_GPIO_PINS) 0 |}.

Definition well_formed (st : tables) : Prop :=
  Z.of_nat (length (callbacks st)) = MAX_GPIO_PINS /\
  Z.of_nat (length (last_interrupt_time st)) = MAX_GPIO_PINS.

(** [gpio_irq_handler(gpio, events)], the timer reading [now] at the
    moment of the interrupt.  The left operand of [&&] guards the read
    of [callbacks[gpio]]; the call reads [callbacks[gpio]] again, and a
    call through a null pointer has no result. *)
Definition gpio_irq_handler (now : Z) (gpio events : Z) (st : tables)
  : option (tables * list effect) :=
  if gpio <? MAX_GPIO_PINS then
    registered ← CArray.get (callbacks st) gpio;
    match registered with
    | None => Some (st, [])
    | Some _ =>
        last ← CArray.get (last_interrupt_time st) gpio;
        if DEBOUNCE_DELAY_MS * 1000 <? PicoTime.absolute_time_diff_us last now then
          times ← CArray.set (last_interrupt_time st) gpio now;
          let st' := {| callbacks := callbacks st;
                        last_interrupt_time := times |} in
          callee ← CArray.get (callbacks st') gpio;
          match callee with
          | Some f => Some (st', [Invoke f])
          | None => None
          end
        else Some (st, [])
    end
  else Some (st, []).

(** [register_gpio_callback(gpio, callback, event_mask)]. *)
Definition register_gpio_callback (gpio : Z) (callback : option fn)
    (event_mask : Z) (st : tables) : option (tables * list effect) :=
  if gpio <? MAX_GPIO_PINS then
    cbs ← CArray.set (callbacks st) gpio callback;
    Some ({| callbacks := cbs;
             last_interrupt_time := last_interrupt_time st |},
          [Gpio_set_irq_enabled gpio event_mask true])
  else Some (st, []).

(** [remove_gpio_callback(gpio, event_mask)]. *)
Definition remove_gpio_callback (gpio : Z) (event_mask : Z) (st : tables)
  : option (tables * list effect) :=
  if gpio <? MAX_GPIO_PINS then
    cbs ← CArray.set (callbacks st) gpio None;
    Some ({| callbacks := cbs;
             last_interrupt_time := last_interrupt_time st |},
          [Gpio_set_irq_enabled gpio event_mask false])
  else Some (st, []).

(** A sequence of interrupts on one pin, given by the timer reading at
    each; the effects are collected in order. *)
Fixpoint dispatch_all (gpio events : Z) (nows : list Z) (st : tables)
  : option (tables * list effect) :=
  match nows with
  | [] => Some (st, [])
  | now :: rest =>
      '(st1, out1) ← gpio_irq_handler now gpio events st;
      '(st2, out2) ← dispatch_all gpio events rest st1;
      Some (st2, out1 ++ out2)
  end.

(** [gpio_irq_manager_init()]: the two SDK calls it makes.  It does
    not touch the tables. *)
Definition gpio_irq_manager_init : list PicoSdk.call :=
  [PicoSdk.Gpio_set_irq_callback;
   PicoSdk.Irq_set_enabled PicoSdk.IO_IRQ_BANK0 true].

(** The SDK call behind an effect of registering or removing. *)
Definition sdk_calls (out : list effect) : list PicoSdk.call :=
  flat_map (fun e => match e with
                     | Gpio_set_irq_enabled gpio event_mask enabled =>
                         [PicoSdk.Gpio_set_irq_enabled gpio event_mask enabled]
                     | Invoke _ => []
                     end) out.

(** Any use of the layer: a call of one of its functions, or an
    interrupt. *)
Inductive operation : Type :=
| Init
| Register (gpio : Z) (callback : option fn) (event_mask : Z)
| Remove (gpio event_mask : Z)
| Interrupt (now gpio events : Z).

Definition perform (op : operation) (st : tables)
  : option (tables * list effect) :=
  match op with
  | Init => Some (st, [])
  | Register gpio callback event_mask =>
      register_gpio_callback gpio callback event_mask st
  | Remove gpio event_mask => remove_gpio_callback gpio event_mask st
  | Interrupt now gpio events => gpio_irq_handler now gpio events st
  end.

Fixpoint perform_all (ops : list operation) (st : tables)
  : option (tables * list effect) :=
  match ops with
  | [] => Some (st, [])
  | op :: rest =>
      '(st1, out1) ← perform op st;
      '(st2, out2) ← perform_all rest st1;
      Some (st2, out1 ++ out2)
  end.

(** The pin number of an operation is a [uint]. *)
Definition pin_is_uint (op : operation) : Prop :=
  match op with
  | Init => True
  | Register gpio _ _ | Remove gpio _ | Interrupt _ gpio _ => 0 <= gpio
  end.


(** Timer readings that do not go back: each is at least [from] and at
    least the one before it. *)
Fixpoint ascending (from : Z) (nows : list Z) : Prop :=
  match nows with
  | [] => True
  | now :: rest => from <= now /\ ascending now rest
  end.

End Dispatch.

Arguments effect : clear implicits.
Arguments tables : clear implicits.

End GpioIrqManager.

(** ** JoystickPi.c *)

Module JoystickPi.

(** [joystick_state_t]: two raw ADC samples and the button. *)
Record joystick_state_t : Type := {
  x : Z;
  y : Z;
  button : bool
}.

(** [joystickPi_map_value].  The [uint16_t] and [int16_t] operands are
    promoted to the 32-bit [int], in which the whole expression is
    evaluated; [/] truncates towards zero ([Z.quot]).  Where the
    mathematical result of an [int] operation does not fit, the model
    writes the two's complement wrap-around that the target's
    instructions produce (C leaves it undefined).  A zero divisor has no
    result.  The final cast keeps the low 16 bits. *)
Definition joystickPi_map_value
    (value min_input max_input min_output max_output : Z) : option Z :=
  let product :=
    CInt.to_int32 ((value - min_input) * (max_output - min_output)) in
  let divisor := max_input - min_input in
  if divisor =? 0 then None
  else
    let quotient := CInt.to_int32 (Z.quot product divisor) in
    Some (CInt.to_int16 (CInt.to_int32 (quotient + min_output))).

(** The rescale as the specification writes it, over the integers. *)
Definition linear_rescale (value in_min in_max out_min out_max : Z) : Z :=
  out_min + Z.quot ((value - in_min) * (out_max - out_min)) (in_max - in_min).

Definition JOYSTICK_X_PIN : Z := 26.
Definition JOYSTICK_Y_PIN : Z := 27.
Definition JOYSTICK_BUTTON_PIN : Z := 22.

(** [joystickPi_init()]: the SDK calls it makes. *)
Definition joystickPi_init : list PicoSdk.call :=
  [PicoSdk.Adc_init;
   PicoSdk.Adc_gpio_init JOYSTICK_X_PIN;
   PicoSdk.Adc_gpio_init JOYSTICK_Y_PIN;
   PicoSdk.Gpio_init JOYSTICK_BUTTON_PIN;
   PicoSdk.Gpio_set_dir JOYSTICK_BUTTON_PIN PicoSdk.GPIO_IN;
   PicoSdk.Gpio_pull_up JOYSTICK_BUTTON_PIN].

End JoystickPi.

(** ** BuzzerPi.c *)

Module BuzzerPi.

(** [CLK_DIV_DEFAULT], the literal [125.0f]. *)
Definition CLK_DIV_DEFAULT : spec_float := Float32.of_Z 125.

(** The largest value the 16-bit wrap register of a PWM slice holds. *)
Definition WRAP_MAX : Z := 65535.

(** Commands sent to the PWM block, and the blocking wait. *)
Inductive command : Type :=
| Pwm_set_wrap (slice_num wrap : Z)
| Pwm_set_clkdiv (slice_num : Z) (divider : spec_float)
| Pwm_set_gpio_level (pin level : Z)
| Pwm_set_enabled (slice_num : Z) (enabled : bool)
| Sleep_ms (ms : Z).

(** [pwm_gpio_to_slice_num] of the SDK. *)
Definition pwm_gpio_to_slice_num (pin : Z) : Z := Z.land (Z.shiftr pin 1) 7.

(** The right-hand side of [wrap]'s initialiser before its conversion to
    [uint32_t]: [target_frequency], [clock_freq] and the constant [1] are
    converted to [float], and the product, the quotient and the
    difference are all single-precision operations. *)
Definition wrap_float (clock_freq target_frequency : Z) (clkdiv : spec_float)
  : spec_float :=
  Float32.sub
    (Float32.div (Float32.of_Z clock_freq)
                 (Float32.mul (Float32.of_Z target_frequency) clkdiv))
    (Float32.of_Z 1).

(** [calculate_wrap(target_frequency, clkdiv)], with the value
    [clock_get_hz(clk_sys)] returns as [clock_freq]. *)
Definition calculate_wrap (clock_freq target_frequency : Z)
    (clkdiv : spec_float) : Z :=
  let wrap := Float32.to_uint32 (wrap_float clock_freq target_frequency clkdiv) in
  CInt.to_uint16 (if 65535 <? wrap then 65535 else wrap).

(** [play_tone(pin, freq, duration_ms)]: the commands it issues, in
    order. *)
Definition play_tone (clock_freq pin freq duration_ms : Z) : list command :=
  let slice_num := pwm_gpio_to_slice_num pin in
  let wrap_value := calculate_wrap clock_freq freq CLK_DIV_DEFAULT in
  [ Pwm_set_wrap slice_num wrap_value;
    Pwm_set_clkdiv slice_num CLK_DIV_DEFAULT;
    Pwm_set_gpio_level pin (Z.quot wrap_value 2);
    Pwm_set_enabled slice_num true;
    Sleep_ms duration_ms;
    Pwm_set_gpio_level pin 0 ].

(** The wrap values a command list programs. *)
Definition programmed_wraps (cs : list command) : list Z :=
  flat_map (fun c => match c with Pwm_set_wrap _ w => [w] | _ => [] end) cs.

(** [initialize_pwm(pin)]. *)
Definition initialize_pwm (pin : Z) : list PicoSdk.call :=
  [PicoSdk.Gpio_set_function pin PicoSdk.GPIO_FUNC_PWM].

(** [play_tone_clkdiv(pin, freq, duration_ms, clkdiv)].  [freq] and
    [duration_ms] are [int]s, converted to the unsigned parameters of
    [calculate_wrap] and [sleep_ms]. *)
Definition play_tone_clkdiv (clock_freq pin freq duration_ms : Z)
    (clkdiv : spec_float) : list command :=
  let slice_num := pwm_gpio_to_slice_num pin in
  let wrap_value := calculate_wrap clock_freq (CInt.to_uint32 freq) clkdiv in
  [ Pwm_set_wrap slice_num wrap_value;
    Pwm_set_clkdiv slice_num clkdiv;
    Pwm_set_gpio_level pin (Z.quot wrap_value 2);
    Pwm_set_enabled slice_num true;
    Sleep_ms (CInt.to_uint32 duration_ms);
    Pwm_set_gpio_level pin 0 ].

(** The body of the loop of [play_melody] at index [i]. *)
Definition play_melody_note (clock_freq pin : Z) (melody durations : list Z)
    (clkdiv : spec_float) (i : Z) : option (list command) :=
  note ← CArray.get melody i;
  if negb (note =? 0) then
    freq ← CArray.get melody i;
    duration ← CArray.get durations i;
    Some (play_tone_clkdiv clock_freq pin freq duration clkdiv)
  else
    duration ← CArray.get durations i;
    Some [Sleep_ms (CInt.to_uint32 duration)].

(** The loop of [play_melody] from index [i], with [remaining]
    iterations to go. *)
Fixpoint play_melody_from (clock_freq pin : Z) (melody durations : list Z)
    (clkdiv : spec_float) (remaining : nat) (i : Z) : option (list command) :=
  match remaining with
  | O => Some []
  | S remaining' =>
      now ← play_melody_note clock_freq pin melody durations clkdiv i;
      later ← play_melody_from clock_freq pin melody durations clkdiv
                remaining' (i + 1);
      Some (now ++ later)
  end.

(** [play_melody(pin, melody, durations, clkdiv, length)]: [i] runs from
    0 while [i < length]. *)
Definition play_melody (clock_freq pin : Z) (melody durations : list Z)
    (clkdiv : spec_float) (length : Z) : option (list command) :=
  play_melody_from clock_freq pin melody durations clkdiv (Z.to_nat length) 0.

(** The loop of [beep] with [remaining] iterations to go. *)
Fixpoint beep_from (clock_freq pin freq duration : Z) (remaining : nat)
  : list command :=
  match remaining with
  | O => []
  | S remaining' =>
      play_tone clock_freq pin (CInt.to_uint32 freq) (CInt.to_uint32 duration)
      ++ Sleep_ms 500 :: beep_from clock_freq pin freq duration remaining'
  end.

(** [beep(pin, freq, duration, repetition)]. *)
Definition beep (clock_freq pin freq duration repetition : Z) : list command :=
  beep_from clock_freq pin freq duration (Z.to_nat repetition).

(** Milliseconds a command list blocks its caller for. *)
Definition blocking_ms (cs : list command) : Z :=
  foldr (fun c total => match c with Sleep_ms ms => ms + total | _ => total end)
        0 cs.

(** The level [pin] is left at: that of the last level command for it. *)
Fixpoint final_level (pin : Z) (cs : list command) : option Z :=
  match cs with
  | [] => None
  | c :: rest =>
      match final_level pin rest with
      | Some level => Some level
      | None =>
          match c with
          | Pwm_set_gpio_level p level => if p =? pin then Some level else None
          | _ => None
          end
      end
  end.

(** No level command leaves [pin] above zero at the end. *)
Definition left_silent (pin : Z) (cs : list command) : Prop :=
  final_level pin cs = None \/ final_level pin cs = Some 0.

End BuzzerPi.

(** ** ButtonPi.c *)

Module ButtonPi.

Record ButtonPi : Type := {
  pin : Z;
  last_state : bool
}.

(** [ButtonPi_init(btn, pin)], with the level [gpio_get(pin)] reads
    before the pin is configured. *)
Definition ButtonPi_init (pin : Z) (level : bool)
  : ButtonPi * list PicoSdk.call :=
  ({| pin := pin; last_state := level |},
   [PicoSdk.Gpio_init pin;
    PicoSdk.Gpio_set_dir pin PicoSdk.GPIO_IN;
    PicoSdk.Gpio_pull_up pin]).

(** [ButtonPi_read(btn)], with the level [gpio_get(btn->pin)] reads. *)
Definition ButtonPi_read (btn : ButtonPi) (level : bool) : bool := negb level.

(** [ButtonPi_attach_callback(btn, callback)]. *)
Definition ButtonPi_attach_callback {fn : Type} (btn : ButtonPi)
    (callback : option fn) (st : GpioIrqManager.tables fn)
  : option (GpioIrqManager.tables fn * list PicoSdk.call) :=
  let init := GpioIrqManager.gpio_irq_manager_init in
  if pin btn <? 30 then
    '(st', out) ← GpioIrqManager.register_gpio_callback
                    (pin btn) callback PicoSdk.GPIO_IRQ_EDGE_FALL st;
    Some (st', init ++ GpioIrqManager.sdk_calls out)
  else Some (st, init).

End ButtonPi.

(** ** GENIUS.c: input handling and the playback state machine *)

Module Genius.

Import JoystickPi.

Definition BUTTON_A_PIN : Z := 5.
Definition BUTTON_B_PIN : Z := 6.
Definition BUZZER_PIN : Z := 21.

Record PlayerState : Type := {
  current_note : Z;
  is_playing : bool;
  next_note_time : Z;
  freq_mult : spec_float;
  current_freq : Z
}.

Record Melody : Type := {
  melody : list Z;
  durations : list Z;
  length : Z;
  name : string
}.

(** The anonymous [volatile struct] named [buttons]. *)
Record Buttons : Type := {
  index : Z;
  a_pressed : bool;
  b_pressed : bool
}.

(** Calls that leave [GENIUS.c], in program order. *)
Inductive call : Type :=
| Pwm_set_gpio_level (pin level : Z)
| Play_tone (pin freq duration_ms : Z)
| Sleep_ms (ms : Z)
| Printf_selected (melody_name : string).

(** The globals, the 64-bit microsecond timer, and the calls made so
    far (oldest first). *)
Record World : Type := {
  buttons : Buttons;
  player : PlayerState;
  timer : Z;
  calls : list call
}.

(** [buttons = {0}], [player = {0}]. *)
Definition boot : World :=
  {| buttons := {| index := 0; a_pressed := false; b_pressed := false |};
     player := {| current_note := 0; is_playing := false; next_note_time := 0;
                  freq_mult := S754_zero false; current_freq := 0 |};
     timer := 0;
     calls := [] |}.

(** *** Assignments to single fields *)

Definition with_buttons (f : Buttons -> Buttons) (w : World) : World :=
  {| buttons := f (buttons w); player := player w;
     timer := timer w; calls := calls w |}.

Definition with_player (f : PlayerState -> PlayerState) (w : World) : World :=
  {| buttons := buttons w; player := f (player w);
     timer := timer w; calls := calls w |}.

Definition set_index (v : Z) : World -> World :=
  with_buttons (fun b =>
    {| index := v; a_pressed := a_pressed b; b_pressed := b_pressed b |}).

Definition set_a_pressed (v : bool) : World -> World :=
  with_buttons (fun b =>
    {| index := index b; a_pressed := v; b_pressed := b_pressed b |}).

Definition set_b_pressed (v : bool) : World -> World :=
  with_buttons (fun b =>
    {| index := index b; a_pressed := a_pressed b; b_pressed := v |}).

Definition set_current_note (v : Z) : World -> World :=
  with_player (fun p =>
    {| current_note := v; is_playing := is_playing p;
       next_note_time := next_note_time p; freq_mult := freq_mult p;
       current_freq := current_freq p |}).

Definition set_is_playing (v : bool) : World -> World :=
  with_player (fun p =>
    {| current_note := current_note p; is_playing := v;
       next_note_time := next_note_time p; freq_mult := freq_mult p;
       current_freq := current_freq p |}).

Definition set_next_note_time (v : Z) : World -> World :=
  with_player (fun p =>
    {| current_note := current_note p; is_playing := is_playing p;
       next_note_time := v; freq_mult := freq_mult p;
       current_freq := current_freq p |}).

Definition set_freq_mult (v : spec_float) : World -> World :=
  with_player (fun p =>
    {| current_note := current_note p; is_playing := is_playing p;
       next_note_time := next_note_time p; freq_mult := v;
       current_freq := current_freq p |}).

Definition set_current_freq (v : Z) : World -> World :=
  with_player (fun p =>
    {| current_note := current_note p; is_playing := is_playing p;
       next_note_time := next_note_time p; freq_mult := freq_mult p;
       current_freq := v |}).

(** *** The platform as seen from this file *)

Definition emit (c : call) (w : World) : World :=
  {| buttons := buttons w; player := player w;
     timer := timer w; calls := calls w ++ [c] |}.

(** The timer advances by [us] microseconds.  Inside one call of a
    function of this file only the blocking calls below take time; the
    time everything else takes is part of the delay between two passes
    of the loop. *)
Definition elapse (us : Z) (w : World) : World :=
  {| buttons := buttons w; player := player w;
     timer := CInt.to_uint64 (timer w + us); calls := calls w |}.

(** [sleep_ms(ms)] returns [ms] milliseconds later. *)
Definition sleep_ms (ms : Z) (w : World) : World :=
  elapse (ms * 1000) (emit (Sleep_ms ms) w).

(** [play_tone(pin, freq, duration_ms)] of [BuzzerPi.c] sounds the tone
    and returns [duration_ms] milliseconds later. *)
Definition play_tone (pin freq duration_ms : Z) (w : World) : World :=
  elapse (duration_ms * 1000) (emit (Play_tone pin freq duration_ms) w).

(** [make_timeout_time_ms(ms)] is [delayed_by_ms(get_absolute_time(), ms)]. *)
Definition make_timeout_time_ms (ms : Z) (w : World) : Z :=
  PicoTime.delayed_by_ms (timer w) ms.

(** *** Interrupt callbacks *)

Inductive callback : Type := btn_a_callback | btn_b_callback.

Definition run_callback (f : callback) : World -> World :=
  match f with
  | btn_a_callback => set_a_pressed true
  | btn_b_callback => set_b_pressed true
  end.

Section Catalog.

(** The constant table [melodies]; its note tables come from
    [melody.h]. *)
Variable melodies : list Melody.

(** [sizeof(melodies)/sizeof(Melody)], a [size_t]. *)
Definition catalog_length : Z := Z.of_nat (Datatypes.length melodies).

(** [handle_input()].  [buttons.index + 1] is converted to the
    unsigned type of the divisor before [%]. *)
Definition handle_input (w : World) : option World :=
  w ← (if a_pressed (buttons w) then
         if catalog_length =? 0 then None
         else
           let w := set_index
                      (CInt.to_uint32 (index (buttons w) + 1) mod catalog_length) w in
           selected ← CArray.get melodies (index (buttons w));
           let w := emit (Printf_selected (name selected)) w in
           let w := set_a_pressed false w in
           Some (set_is_playing false w)
       else Some w);
  if b_pressed (buttons w) then
    let w := set_is_playing (negb (is_playing (player w))) w in
    let w := set_current_note 0 w in
    Some (set_b_pressed false w)
  else Some w.

(** [update_sound()], with the sample [joystickPi_read()] returns. *)
Definition update_sound (js : joystick_state_t) (w : World) : option World :=
  if negb (is_playing (player w)) then
    Some (emit (Pwm_set_gpio_level BUZZER_PIN 0) w)
  else
    let w := set_freq_mult
               (Float32.add Float32.half
                  (Float32.div (Float32.of_Z (x js)) (Float32.of_Z 4095))) w in
    if PicoTime.time_reached (timer w) (next_note_time (player w)) then
      selected ← CArray.get melodies (index (buttons w));
      if length selected <=? current_note (player w) then
        Some (set_is_playing false w)
      else
        original ← CArray.get (melody selected) (current_note (player w));
        duration ← CArray.get (durations selected) (current_note (player w));
        let w :=
          if 0 <? original then
            let w := set_current_freq
                       (Float32.to_int32
                          (Float32.mul (Float32.of_Z original)
                                       (freq_mult (player w)))) w in
            play_tone BUZZER_PIN (CInt.to_uint32 (current_freq (player w)))
                      (CInt.to_uint32 duration) w
          else
            let w := set_current_freq 0 w in
            sleep_ms (CInt.to_uint32 duration) w in
        let w := set_current_note (current_note (player w) + 1) w in
        Some (set_next_note_time
                (make_timeout_time_ms (CInt.to_uint32 duration) w) w)
    else Some w.

(** One pass of the polling loop as the player sees it: [fst step]
    microseconds after the previous pass returned, [update_sound] runs
    and the joystick reads [snd step]. *)
Definition poll (step : Z * joystick_state_t) (w : World) : option World :=
  update_sound (snd step) (elapse (fst step) w).

Fixpoint run (schedule : list (Z * joystick_state_t)) (w : World)
  : option World :=
  match schedule with
  | [] => Some w
  | step :: rest => w' ← poll step w; run rest w'
  end.

End Catalog.

(** A melody whose two tables end after [length] entries, so that a read
    at a position that is not below [length] has no result. *)
Definition truncated (m : Melody) : Melody :=
  {| melody := take (Z.to_nat (length m)) (melody m);
     durations := take (Z.to_nat (length m)) (durations m);
     length := length m;
     name := name m |}.

(** The precondition on the static data: both tables hold exactly
    [length] entries. *)
Definition well_formed (m : Melody) : Prop :=
  Z.of_nat (Datatypes.length (melody m)) = length m /\
  Z.of_nat (Datatypes.length (durations m)) = length m.

(** The multiplier [update_sound] derives from the joystick's X sample. *)
Definition bend (js : joystick_state_t) : spec_float :=
  Float32.add Float32.half
    (Float32.div (Float32.of_Z (x js)) (Float32.of_Z 4095)).

(** The tone and rest commands among [cs]: everything except the
    zero-level command of the paused state and console output. *)
Definition sounded (cs : list call) : list call :=
  List.filter (fun c => match c with
                        | Play_tone _ _ _ | Sleep_ms _ => true
                        | _ => false
                        end) cs.

(** The table entry a sounded command comes from: a tone of the note's
    duration for a positive frequency, a wait of it otherwise. *)
Definition plays (c : call) (note : Z * Z) : Prop :=
  if 0 <? fst note
  then exists freq, c = Play_tone BUZZER_PIN freq (CInt.to_uint32 (snd note))
  else c = Sleep_ms (CInt.to_uint32 (snd note)).

(** The state the indexing in [update_sound] relies on: the selection
    is inside the catalog, the note index is not negative, and while
    playing it is at most the selected melody's length. *)
Definition in_range (melodies : list Melody) (w : World) : Prop :=
  exists selected,
    CArray.get melodies (index (buttons w)) = Some selected /\
    0 <= current_note (player w) /\
    (is_playing (player w) = true -> current_note (player w) <= length selected).

(** The tones and rests sent so far are those of the first
    [current_note] entries of [selected], in order, and a paused player
    is at the end. *)
Definition played_in_order (selected : Melody) (w : World) : Prop :=
  0 <= current_note (player w) <= length selected /\
  Forall2 plays (sounded (calls w))
    (take (Z.to_nat (current_note (player w)))
          (zip (melody selected) (durations selected))) /\
  (is_playing (player w) = false -> current_note (player w) = length selected).

(** *** The status line *)

Definition UPDATE_MS : Z := 100.

(** The [static] variable of [show_status], and the lines printed so far
    as the three numbers each shows. *)
Record Status : Type := {
  last : Z;
  shown : list (Z * Z * Z)
}.

(** [last = 0] and nothing printed. *)
Definition status_boot : Status := {| last := 0; shown := [] |}.

(** [show_status()], with the sample [joystickPi_read()] returns. *)
Definition show_status (js : joystick_state_t) (w : World) (s : Status)
  : Status :=
  if PicoTime.time_reached (timer w) (last s) then
    {| last := make_timeout_time_ms UPDATE_MS w;
       shown := shown s ++ [(x js, y js, current_freq (player w))] |}
  else s.

(** *** The loop of [main] *)

Record Firmware : Type := {
  fw_world : World;
  fw_status : Status
}.

(** What happens around one pass of the loop: the callbacks the
    interrupt handler has invoked since the previous pass, the time
    spent outside the blocking calls, and the two joystick samples. *)
Record Inputs : Type := {
  pressed : list callback;
  spent_us : Z;
  sound_sample : joystick_state_t;
  status_sample : joystick_state_t
}.

Section Loop.

Variable melodies : list Melody.

(** One iteration of [while(true)]. *)
Definition loop_pass (i : Inputs) (fw : Firmware) : option Firmware :=
  let w := foldl (fun w f => run_callback f w) (fw_world fw) (pressed i) in
  let w := elapse (spent_us i) w in
  w ← handle_input melodies w;
  w ← update_sound melodies (sound_sample i) w;
  let s := show_status (status_sample i) w (fw_status fw) in
  Some {| fw_world := sleep_ms 10 w; fw_status := s |}.

Fixpoint loop (inputs : list Inputs) (fw : Firmware) : option Firmware :=
  match inputs with
  | [] => Some fw
  | i :: rest => fw' ← loop_pass i fw; loop rest fw'
  end.

(** [presses] consumed presses of one button, each by its own call of
    [handle_input]. *)
Fixpoint press_and_handle (f : callback) (presses : nat) (w : World)
  : option World :=
  match presses with
  | O => Some w
  | S presses' =>
      w' ← handle_input melodies (run_callback f w);
      press_and_handle f presses' w'
  end.

End Loop.

(** *** Start-up and interrupts *)

(** [init_hardware()]: the dispatch tables it leaves and the SDK calls
    it makes, with the levels the two button pins read. *)
Definition init_hardware (level_a level_b : bool)
    (st : GpioIrqManager.tables callback)
  : option (GpioIrqManager.tables callback * list PicoSdk.call) :=
  let '(btn_a, calls_a) := ButtonPi.ButtonPi_init BUTTON_A_PIN level_a in
  let '(btn_b, calls_b) := ButtonPi.ButtonPi_init BUTTON_B_PIN level_b in
  '(st, attach_a) ← ButtonPi.ButtonPi_attach_callback btn_a (Some btn_a_callback) st;
  '(st, attach_b) ← ButtonPi.ButtonPi_attach_callback btn_b (Some btn_b_callback) st;
  Some (st, JoystickPi.joystickPi_init ++ BuzzerPi.initialize_pwm BUZZER_PIN
            ++ calls_a ++ calls_b ++ attach_a ++ attach_b).

(** The dispatch tables together with the globals of [GENIUS.c]. *)
Record Machine : Type := {
  machine_tables : GpioIrqManager.tables callback;
  machine_world : World
}.

(** Running the callbacks the handler invoked. *)
Definition deliver (out : list (GpioIrqManager.effect callback)) (w : World)
  : World :=
  foldl (fun w e => match e with
                    | GpioIrqManager.Invoke f => run_callback f w
                    | GpioIrqManager.Gpio_set_irq_enabled _ _ _ => w
                    end) w out.

(** A GPIO interrupt when the timer reads [now]. *)
Definition interrupt (now gpio events : Z) (m : Machine) : option Machine :=
  '(st, out) ← GpioIrqManager.gpio_irq_handler now gpio events (machine_tables m);
  Some {| machine_tables := st; machine_world := deliver out (machine_world m) |}.

End Genius.

(** ** Concrete data used in the examples below *)

Module Scenario.

Import Genius.

(** The three-note melody of the specification's playback scenario. *)
Definition three_notes : Melody :=
  {| melody := [440; 0; 880];
     durations := [200; 100; 300];
     length := 3;
     name := "three notes" |}.

Definition scale : Melody :=
  {| melody := [262; 294; 330; 349];
     durations := [150; 150; 150; 300];
     length := 4;
     name := "scale" |}.

Definition catalog : list Melody := [three_notes; scale; three_notes].



Definition stick (x : Z) : JoystickPi.joystick_state_t :=
  {| JoystickPi.x := x; JoystickPi.y := 2048; JoystickPi.button := false |}.

(** A world in which melody [index] is selected. *)
Definition world (index note : Z) (playing a b : bool) (now deadline : Z)
    (mult : spec_float) : World :=
  {| buttons := {| index := index; a_pressed := a; b_pressed := b |};
     player := {| current_note := note; is_playing := playing;
                  next_note_time := deadline; freq_mult := mult;
                  current_freq := 0 |};
     timer := now;
     calls := [] |}.

(** Dispatch tables with [btn_a_callback] on pin 5, last accepted at
    one second after boot. *)
Definition button_a_registered : GpioIrqManager.tables callback :=
  {| GpioIrqManager.callbacks :=
       <[5%nat := Some btn_a_callback]> (replicate 30 None);
     GpioIrqManager.last_interrupt_time :=
       <[5%nat := 1000000]> (replicate 30 0) |}.

End Scenario.

(** * Properties *)

(** ** Arrays *)

Section ArrayFacts.

Context {A : Type}.
Implicit Types (a : list A) (i : Z) (v : A).

Lemma get_Some_bounds a i v :
  CArray.get a i = Some v -> 0 <= i < Z.of_nat (length a).
Proof.
  unfold CArray.get. destruct (Z.leb_spec 0 i) as [Hi|Hi]; [|discriminate].
  intros Hv%lookup_lt_Some. lia.
Qed.

Lemma get_in_bounds a i :
  0 <= i < Z.of_nat (length a) -> is_Some (CArray.get a i).
Proof.
  intros [Hlo Hhi]. unfold CArray.get.
  destruct (Z.leb_spec 0 i); [|lia]. apply lookup_lt_is_Some. lia.
Qed.

Lemma set_in_bounds a i v :
  0 <= i < Z.of_nat (length a) ->
  CArray.set a i v = Some (<[Z.to_nat i := v]> a).
Proof.
  intros [Hlo Hhi]. unfold CArray.set.
  destruct (Z.leb_spec 0 i); [|lia].
  destruct (Z.ltb_spec i (Z.of_nat (length a))); [reflexivity|lia].
Qed.

Lemma get_set_same a i v :
  0 <= i < Z.of_nat (length a) ->
  CArray.get (<[Z.to_nat i := v]> a) i = Some v.
Proof.
  intros [Hlo Hhi]. unfold CArray.get.
  destruct (Z.leb_spec 0 i); [|lia]. apply list_lookup_insert_eq. lia.
Qed.

Lemma get_take a i (n : Z) :
  i < n -> CArray.get (take (Z.to_nat n) a) i = CArray.get a i.
Proof.
  intros Hi. unfold CArray.get.
  destruct (Z.leb_spec 0 i); [|reflexivity]. apply lookup_take_lt. lia.
Qed.

End ArrayFacts.

(** ** The interrupt dispatch layer *)

Section DispatchFacts.

Import GpioIrqManager.
Context {fn : Type}.
Implicit Types (st : tables fn) (f : fn).

Lemma boot_well_formed : well_formed (boot (fn := fn)).
Proof. split; reflexivity. Qed.

(** An interrupt on a pin whose timestamp lies more than the debounce
    delay in the past is accepted. *)
Lemma handler_accepts st p f last now events :
  p < MAX_GPIO_PINS ->
  CArray.get (callbacks st) p = Some (Some f) ->
  CArray.get (last_interrupt_time st) p = Some last ->
  DEBOUNCE_DELAY_MS * 1000 < PicoTime.absolute_time_diff_us last now ->
  gpio_irq_handler now p events st =
    Some ({| callbacks := callbacks st;
             last_interrupt_time :=
               <[Z.to_nat p := now]> (last_interrupt_time st) |},
          [Invoke f]).
Proof.
  intros Hp Hcb Hlast Hlong. unfold gpio_irq_handler.
  destruct (Z.ltb_spec p MAX_GPIO_PINS); [|lia].
  rewrite Hcb. simpl. rewrite Hlast. simpl.
  destruct (Z.ltb_spec (DEBOUNCE_DELAY_MS * 1000)
              (PicoTime.absolute_time_diff_us last now)); [|lia].
  rewrite (set_in_bounds _ _ _ (get_Some_bounds _ _ _ Hlast)). simpl.
  rewrite Hcb. reflexivity.
Qed.

(** An interrupt within the debounce delay is dropped. *)
Lemma handler_vetoes st p f last now events :
  p < MAX_GPIO_PINS ->
  CArray.get (callbacks st) p = Some (Some f) ->
  CArray.get (last_interrupt_time st) p = Some last ->
  PicoTime.absolute_time_diff_us last now <= DEBOUNCE_DELAY_MS * 1000 ->
  gpio_irq_handler now p events st = Some (st, []).
Proof.
  intros Hp Hcb Hlast Hshort. unfold gpio_irq_handler.
  destruct (Z.ltb_spec p MAX_GPIO_PINS); [|lia].
  rewrite Hcb. simpl. rewrite Hlast. simpl.
  destruct (Z.ltb_spec (DEBOUNCE_DELAY_MS * 1000)
              (PicoTime.absolute_time_diff_us last now)); [lia|reflexivity].
Qed.

(** A pin without a callback is ignored. *)
Lemma handler_unregistered st p now events :
  p < MAX_GPIO_PINS ->
  CArray.get (callbacks st) p = Some None ->
  gpio_irq_handler now p events st = Some (st, []).
Proof.
  intros Hp Hcb. unfold gpio_irq_handler.
  destruct (Z.ltb_spec p MAX_GPIO_PINS); [|lia]. rewrite Hcb. reflexivity.
Qed.

(** On well-formed tables the handler stays inside both arrays, for
    every pin number, and leaves them well formed. *)
Lemma handler_in_bounds st p now events :
  well_formed st -> 0 <= p ->
  exists st' out,
    gpio_irq_handler now p events st = Some (st', out) /\ well_formed st'.
Proof.
  intros [Hc Ht] Hp0.
  destruct (Z.ltb_spec p MAX_GPIO_PINS) as [Hp|Hp].
  - destruct (get_in_bounds (callbacks st) p) as [cb Hcb]; [lia|].
    destruct (get_in_bounds (last_interrupt_time st) p) as [last Hlast]; [lia|].
    destruct cb as [f|].
    + destruct (Z.ltb_spec (DEBOUNCE_DELAY_MS * 1000)
                  (PicoTime.absolute_time_diff_us last now)).
      * eexists _, _. split; [by eapply handler_accepts|].
        split; simpl; [done|]. by rewrite length_insert.
      * eexists _, _. split; [by eapply handler_vetoes|done].
    + eexists _, _. split; [by eapply handler_unregistered|done].
  - exists st, []. split; [|done]. unfold gpio_irq_handler.
    destruct (Z.ltb_spec p MAX_GPIO_PINS); [lia|reflexivity].
Qed.

(** While the timer is below [INT64_MAX] the difference is the elapsed
    time. *)
Lemma absolute_time_diff_us_elapsed from to :
  0 <= from <= to -> to <= CInt.INT64_MAX ->
  PicoTime.absolute_time_diff_us from to = to - from.
Proof.
  unfold PicoTime.absolute_time_diff_us, CInt.to_int64, CInt.INT64_MAX.
  intros Hfrom Hto. rewrite Z.mod_small; lia.
Qed.

(** Registering on a valid pin stores the callback, leaves the timestamps
    alone and enables the pin's interrupt. *)
Lemma register_stores st p callback event_mask :
  well_formed st -> 0 <= p < MAX_GPIO_PINS ->
  exists st',
    register_gpio_callback p callback event_mask st =
      Some (st', [Gpio_set_irq_enabled p event_mask true]) /\
    CArray.get (callbacks st') p = Some callback /\
    last_interrupt_time st' = last_interrupt_time st /\
    well_formed st'.
Proof.
  intros [Hc Ht] Hp. unfold register_gpio_callback.
  destruct (Z.ltb_spec p MAX_GPIO_PINS); [|lia].
  rewrite set_in_bounds by lia. eexists. split; [reflexivity|]. simpl.
  split; [apply get_set_same; lia|]. split; [reflexivity|].
  split; simpl; [by rewrite length_insert|done].
Qed.

(** Removing on a valid pin empties the slot and disables the interrupt. *)
Lemma remove_clears st p event_mask :
  well_formed st -> 0 <= p < MAX_GPIO_PINS ->
  exists st',
    remove_gpio_callback p event_mask st =
      Some (st', [Gpio_set_irq_enabled p event_mask false]) /\
    CArray.get (callbacks st') p = Some None /\
    last_interrupt_time st' = last_interrupt_time st /\
    well_formed st'.
Proof.
  intros [Hc Ht] Hp. unfold remove_gpio_callback.
  destruct (Z.ltb_spec p MAX_GPIO_PINS); [|lia].
  rewrite set_in_bounds by lia. eexists. split; [reflexivity|]. simpl.
  split; [apply get_set_same; lia|]. split; [reflexivity|].
  split; simpl; [by rewrite length_insert|done].
Qed.

(** C1.  For a valid pin [p] with a registered callback [f], an
    interrupt whose elapsed time since the pin's last accepted trigger
    exceeds the 200 ms debounce delay invokes [f] exactly once and
    records the new timestamp; an interrupt within the delay invokes
    nothing and leaves both tables as they were; hence an accepted
    interrupt followed by one within the delay invokes [f] once in
    total.  Times are microsecond timer readings. *)
Theorem debounce_dispatch st p f last now events :
  p < MAX_GPIO_PINS ->
  CArray.get (callbacks st) p = Some (Some f) ->
  CArray.get (last_interrupt_time st) p = Some last ->
  0 <= last <= now -> now <= CInt.INT64_MAX ->
  (200 * 1000 < now - last ->
     exists st',
       gpio_irq_handler now p events st = Some (st', [Invoke f]) /\
       callbacks st' = callbacks st /\
       CArray.get (last_interrupt_time st') p = Some now /\
       forall again,
         now <= again <= CInt.INT64_MAX -> again - now <= 200 * 1000 ->
         dispatch_all p events [now; again] st = Some (st', [Invoke f])) /\
  (now - last <= 200 * 1000 ->
     gpio_irq_handler now p events st = Some (st, [])).
Proof.
  intros Hp Hcb Hlast Hlast_now Hnow.
  pose proof (absolute_time_diff_us_elapsed last now Hlast_now Hnow) as Hdiff.
  split.
  - intros Hlong.
    assert (Hlong' : DEBOUNCE_DELAY_MS * 1000
                     < PicoTime.absolute_time_diff_us last now)
      by (rewrite Hdiff; exact Hlong).
    pose proof (get_Some_bounds _ _ _ Hlast) as Hb.
    eexists. split; [by apply handler_accepts with (last := last)|].
    split; [reflexivity|]. split; [simpl; by apply get_set_same|].
    intros again Hagain Hshort. simpl.
    rewrite (handler_accepts _ _ _ _ _ _ Hp Hcb Hlast Hlong'). simpl.
    erewrite handler_vetoes; [reflexivity|exact Hp|exact Hcb| | ].
    + simpl. by apply get_set_same.
    + rewrite absolute_time_diff_us_elapsed by lia. exact Hshort.
  - intros Hshort. eapply handler_vetoes; [done..|].
    rewrite Hdiff. exact Hshort.
Qed.

(** C3.  For a pin number at or above the table capacity, registering,
    removing and dispatching return at once: no table entry is read or
    written, both tables are unchanged, and nothing is invoked or
    enabled. *)
Theorem out_of_range_pin_is_ignored st p callback event_mask now events :
  MAX_GPIO_PINS <= p ->
  register_gpio_callback p callback event_mask st = Some (st, []) /\
  remove_gpio_callback p event_mask st = Some (st, []) /\
  gpio_irq_handler now p events st = Some (st, []).
Proof.
  intros Hp.
  unfold register_gpio_callback, remove_gpio_callback, gpio_irq_handler.
  destruct (Z.ltb_spec p MAX_GPIO_PINS); [lia|]. done.
Qed.

End DispatchFacts.

(** ** Fixed-width conversions *)

Section IntegerFacts.

Import CInt.

Lemma to_int32_fits z : is_int32 z -> to_int32 z = z.
Proof.
  unfold is_int32, INT32_MIN, INT32_MAX, to_int32. intros Hz.
  rewrite Z.mod_small; lia.
Qed.

Lemma to_int16_fits z : is_int16 z -> to_int16 z = z.
Proof.
  unfold is_int16, to_int16. intros Hz. rewrite Z.mod_small; lia.
Qed.

Lemma to_uint32_fits z : is_uint32 z -> to_uint32 z = z.
Proof.
  unfold is_uint32, UINT32_MAX, to_uint32. intros Hz.
  rewrite Z.mod_small; lia.
Qed.

(** [to_int32] changes its argument by a multiple of [2^32]. *)
Lemma to_int32_congruent z : exists k, to_int32 z = z + k * 2 ^ 32.
Proof.
  exists (- ((z + 2 ^ 31) / 2 ^ 32)). unfold to_int32.
  rewrite Z.mod_eq by lia. lia.
Qed.

(** The low 16 bits do not see a multiple of [2^32]. *)
Lemma to_int16_absorbs z k : to_int16 (z + k * 2 ^ 32) = to_int16 z.
Proof.
  unfold to_int16. f_equal.
  replace (z + k * 2 ^ 32 + 2 ^ 15) with (z + 2 ^ 15 + (k * 2 ^ 16) * 2 ^ 16) by lia.
  apply Z_mod_plus_full.
Qed.

Lemma to_int16_of_int32_sum q m :
  to_int16 (to_int32 (to_int32 q + m)) = to_int16 (q + m).
Proof.
  destruct (to_int32_congruent q) as [k Hk].
  destruct (to_int32_congruent (to_int32 q + m)) as [k' Hk'].
  rewrite Hk', to_int16_absorbs, Hk.
  replace (q + k * 2 ^ 32 + m) with (q + m + k * 2 ^ 32) by lia.
  apply to_int16_absorbs.
Qed.

End IntegerFacts.

(** ** The joystick range mapping *)

Section MapValueFacts.

Import CInt JoystickPi.

(** With a non-zero divisor the function returns the low 16 bits of the
    truncated quotient of the 32-bit product, plus [min_output]. *)
Lemma map_value_unfold value in_min in_max out_min out_max :
  in_min <> in_max ->
  joystickPi_map_value value in_min in_max out_min out_max =
    Some (to_int16
            (Z.quot (to_int32 ((value - in_min) * (out_max - out_min)))
                    (in_max - in_min) + out_min)).
Proof.
  intros Hne. unfold joystickPi_map_value.
  destruct (Z.eqb_spec (in_max - in_min) 0); [lia|].
  by rewrite to_int16_of_int32_sum.
Qed.

(** C8, as the code has it.  For [in_min <> in_max], when the product
    [(value - in_min) * (out_max - out_min)] fits the 32-bit [int] in
    which it is computed, [joystickPi_map_value] returns the low 16 bits
    of [out_min + (value - in_min) * (out_max - out_min) / (in_max -
    in_min)] with truncating division, which is that number itself when
    it fits [int16_t]; the result at [value = in_min] is [out_min], and
    the result at [value = in_max] is [out_max] when [(in_max - in_min) *
    (out_max - out_min)] fits the 32-bit [int]. *)
Theorem map_value_rescale value in_min in_max out_min out_max :
  in_min <> in_max ->
  (is_int32 ((value - in_min) * (out_max - out_min)) ->
     joystickPi_map_value value in_min in_max out_min out_max =
       Some (to_int16 (linear_rescale value in_min in_max out_min out_max)) /\
     (is_int16 (linear_rescale value in_min in_max out_min out_max) ->
        joystickPi_map_value value in_min in_max out_min out_max =
          Some (linear_rescale value in_min in_max out_min out_max))) /\
  (is_int16 out_min ->
     joystickPi_map_value in_min in_min in_max out_min out_max = Some out_min) /\
  (is_int16 out_max ->
     is_int32 ((in_max - in_min) * (out_max - out_min)) ->
     joystickPi_map_value in_max in_min in_max out_min out_max = Some out_max).
Proof.
  intros Hne. split; [|split].
  - intros Hfit. rewrite map_value_unfold, (to_int32_fits _ Hfit) by done.
    rewrite Z.add_comm. fold (linear_rescale value in_min in_max out_min out_max).
    split; [reflexivity|]. intros Hfit16. by rewrite to_int16_fits.
  - intros Hout. rewrite map_value_unfold by done.
    rewrite Z.sub_diag, Z.mul_0_l. change (to_int32 0) with 0.
    rewrite Z.quot_0_l by lia. by rewrite to_int16_fits.
  - intros Hout Hfit. rewrite map_value_unfold, (to_int32_fits _ Hfit) by done.
    rewrite Z.mul_comm, Z.quot_mul by lia.
    replace (out_max - out_min + out_min) with out_max by lia.
    by rewrite to_int16_fits.
Qed.

(** C8 as stated fails: over the full input and output ranges the
    product exceeds the 32-bit [int], and the result at [value = in_max]
    is not [out_max]. *)
Lemma map_value_upper_endpoint_overflows :
  0 <> 65535 /\
  joystickPi_map_value 65535 0 65535 (-32768) 32767 = Some 32766 /\
  joystickPi_map_value 65535 0 65535 (-32768) 32767 <> Some 32767 /\
  linear_rescale 65535 0 65535 (-32768) 32767 = 32767.
Proof.
  split; [lia|]. split; [reflexivity|]. split; [discriminate|reflexivity].
Qed.

Lemma map_value_rescale_witness :
  0 <> 4095 /\
  joystickPi_map_value 1000 0 4095 (-100) 100 = Some (-52) /\
  joystickPi_map_value 0 0 4095 (-100) 100 = Some (-100) /\
  joystickPi_map_value 4095 0 4095 (-100) 100 = Some 100.
Proof.
  assert (Hne : 0 <> 4095) by lia.
  destruct (map_value_rescale 1000 0 4095 (-100) 100 Hne) as (Hmid & Hlo & Hhi).
  split; [exact Hne|]. split; [|split].
  - destruct Hmid as [Heq _]; [|exact Heq].
    unfold is_int32, INT32_MIN, INT32_MAX; lia.
  - apply Hlo. unfold is_int16; lia.
  - apply Hhi; [unfold is_int16|unfold is_int32, INT32_MIN, INT32_MAX]; lia.
Defined.

End MapValueFacts.

(** ** Single-precision arithmetic *)

Section FloatFacts.

Import Float32.

Lemma binary_round_aux_nonneg m e l :
  is_negative (binary_round_aux prec emax false m e l) = false.
Proof.
  unfold binary_round_aux.
  destruct (shr_fexp prec emax m e l) as [mrs' e'].
  destruct (shr_fexp prec emax _ e' loc_Exact) as [mrs'' e''].
  destruct (shr_m mrs''); [reflexivity| |reflexivity].
  destruct (e'' <=? emax - prec); reflexivity.
Qed.

Lemma binary_round_nonneg m e :
  is_negative (binary_round prec emax false m e) = false.
Proof.
  unfold binary_round. destruct (shl_align _ _ _) as [mz ez].
  apply binary_round_aux_nonneg.
Qed.

Lemma of_Z_nonneg z : 0 <= z -> is_negative (of_Z z) = false.
Proof.
  intros Hz. unfold of_Z, binary_normalize.
  destruct z as [|p|p]; [reflexivity|apply binary_round_nonneg|lia].
Qed.

Lemma mul_nonneg a b :
  is_negative a = false -> is_negative b = false ->
  is_negative (mul a b) = false.
Proof.
  destruct a as [sa|sa| |sa ma ea], b as [sb|sb| |sb mb eb];
    simpl; intros Ha Hb; subst; try reflexivity.
  apply binary_round_aux_nonneg.
Qed.

Lemma div_nonneg a b :
  is_negative a = false -> is_negative b = false ->
  is_negative (div a b) = false.
Proof.
  destruct a as [sa|sa| |sa ma ea], b as [sb|sb| |sb mb eb];
    simpl; intros Ha Hb; subst; try reflexivity.
  unfold div, SFdiv. destruct (SFdiv_core_binary _ _ _ _ _ _) as [[mz ez] lz].
  apply binary_round_aux_nonneg.
Qed.

Lemma add_nonneg a b :
  is_negative a = false -> is_negative b = false ->
  is_negative (add a b) = false.
Proof.
  destruct a as [sa|sa| |sa ma ea], b as [sb|sb| |sb mb eb];
    simpl; intros Ha Hb; subst; try reflexivity.
  unfold add, SFadd, cond_Zopp, binary_normalize.
  destruct (shl_align ma ea _) as [ma' ea'], (shl_align mb eb _) as [mb' eb'].
  simpl. apply binary_round_nonneg.
Qed.

Lemma trunc_abs_nonneg m e : 0 <= trunc_abs m e.
Proof. unfold trunc_abs. apply Z.shiftl_nonneg. lia. Qed.

Lemma to_uint32_range f : 0 <= to_uint32 f <= CInt.UINT32_MAX.
Proof.
  pose proof (eq_refl : CInt.UINT32_MAX = 4294967295) as Hmax.
  destruct f as [s|s| |s m e]; simpl; try lia.
  - destruct s; lia.
  - pose proof (trunc_abs_nonneg m e). destruct s; lia.
Qed.

Lemma to_uint32_negative f : is_negative f = true -> to_uint32 f = 0.
Proof. destruct f as [s|s| |s m e]; simpl; intros H; by try rewrite H. Qed.

Lemma to_int32_nonneg f : is_negative f = false -> 0 <= to_int32 f.
Proof.
  pose proof (eq_refl : CInt.INT32_MAX = 2147483647) as Hmax.
  pose proof (eq_refl : CInt.INT32_MIN = -2147483648) as Hmin.
  destruct f as [s|s| |s m e]; simpl; intros Hs; subst; try lia.
  pose proof (trunc_abs_nonneg m e). simpl. lia.
Qed.

(** The conversion to [int] never rounds up: for a non-negative finite
    value it gives the integer part, or [INT32_MAX] above the range. *)
Lemma to_int32_floor m e :
  let f := S754_finite false m e in
  (inject_Z (to_int32 f) <= to_Q f)%Q /\
  ((to_Q f < inject_Z (2 ^ 31))%Q -> (to_Q f < inject_Z (to_int32 f + 1))%Q).
Proof.
  pose proof (eq_refl : CInt.INT32_MAX = 2147483647) as Hmax.
  pose proof (eq_refl : CInt.INT32_MIN = -2147483648) as Hmin.
  pose proof (trunc_abs_nonneg m e) as Hnn.
  simpl. unfold trunc_abs in *. destruct (Z.leb_spec 0 e) as [He|He].
  - rewrite Z.shiftl_mul_pow2 in * by lia. split.
    + rewrite <- Zle_Qle. lia.
    + rewrite <- !Zlt_Qlt. lia.
  - rewrite Z.shiftl_div_pow2 in * by lia.
    assert (Hpow : 0 < 2 ^ (- e)) by (apply Z.pow_pos_nonneg; lia).
    pose proof (Z.mul_div_le (Z.pos m) (2 ^ (- e)) Hpow) as Hle.
    pose proof (Z.mul_succ_div_gt (Z.pos m) (2 ^ (- e)) Hpow) as Hgt.
    unfold Qle, Qlt. simpl. rewrite !Z2Pos.id by lia. split; nia.
Qed.

End FloatFacts.

(** ** The PWM wrap value *)

Section BuzzerFacts.

Import BuzzerPi.

Lemma calculate_wrap_min clock_freq target_frequency clkdiv :
  calculate_wrap clock_freq target_frequency clkdiv =
    Z.min WRAP_MAX
      (Float32.to_uint32 (wrap_float clock_freq target_frequency clkdiv)).
Proof.
  unfold calculate_wrap, WRAP_MAX, CInt.to_uint16.
  pose proof (to_uint32_range (wrap_float clock_freq target_frequency clkdiv)).
  destruct (Z.ltb_spec 65535
              (Float32.to_uint32 (wrap_float clock_freq target_frequency clkdiv)));
    rewrite Z.mod_small; lia.
Qed.

(** C10, as the code has it.  Whatever the clock, the frequency and the
    divider, [calculate_wrap] returns a value between 0 and 65535, so
    the wrap [play_tone] programs never exceeds the register's maximum;
    a computed wrap above 65535 is replaced by 65535.  The subtraction
    is a floating-point one: a negative difference does not wrap around
    and the result is then 0. *)
Theorem wrap_never_exceeds_maximum clock_freq target_frequency clkdiv :
  0 <= calculate_wrap clock_freq target_frequency clkdiv <= WRAP_MAX /\
  (forall pin duration_ms,
     Forall (fun wrap => 0 <= wrap <= WRAP_MAX)
       (programmed_wraps
          (play_tone clock_freq pin target_frequency duration_ms))) /\
  (WRAP_MAX < Float32.to_uint32 (wrap_float clock_freq target_frequency clkdiv) ->
     calculate_wrap clock_freq target_frequency clkdiv = WRAP_MAX) /\
  (Float32.is_negative (wrap_float clock_freq target_frequency clkdiv) = true ->
     calculate_wrap clock_freq target_frequency clkdiv = 0).
Proof.
  assert (Hrange : forall div,
            0 <= calculate_wrap clock_freq target_frequency div <= WRAP_MAX).
  { intros div. rewrite calculate_wrap_min.
    pose proof (to_uint32_range (wrap_float clock_freq target_frequency div)).
    unfold WRAP_MAX. lia. }
  split; [apply Hrange|]. split; [|split].
  - intros pin duration_ms. simpl. repeat constructor; apply Hrange.
  - intros Habove. rewrite calculate_wrap_min. lia.
  - intros Hneg. rewrite calculate_wrap_min, to_uint32_negative by done.
    reflexivity.
Qed.

(** C10 as stated fails in its account of a target above the clock:
    with a 125 MHz clock, 2 MHz times 125 exceeds the clock, the
    difference is [-0.5], nothing wraps around and the result is 0
    rather than the clamp value. *)
Lemma wrap_above_clock_is_zero :
  125000000 < 2000000 * 125 /\
  wrap_float 125000000 2000000 CLK_DIV_DEFAULT = S754_finite true 8388608 (-24) /\
  calculate_wrap 125000000 2000000 CLK_DIV_DEFAULT = 0 /\
  calculate_wrap 125000000 2000000 CLK_DIV_DEFAULT <> WRAP_MAX.
Proof.
  split; [lia|]. split; [reflexivity|]. split; [reflexivity|discriminate].
Qed.

Lemma wrap_never_exceeds_maximum_witness :
  calculate_wrap 125000000 10 CLK_DIV_DEFAULT = WRAP_MAX /\
  calculate_wrap 125000000 2000000 CLK_DIV_DEFAULT = 0 /\
  Forall (fun wrap => 0 <= wrap <= WRAP_MAX)
    (programmed_wraps (play_tone 125000000 21 440 200)).
Proof.
  destruct (wrap_never_exceeds_maximum 125000000 10 CLK_DIV_DEFAULT)
    as (_ & _ & Hclamp & _).
  destruct (wrap_never_exceeds_maximum 125000000 2000000 CLK_DIV_DEFAULT)
    as (_ & _ & _ & Hzero).
  destruct (wrap_never_exceeds_maximum 125000000 440 CLK_DIV_DEFAULT)
    as (_ & Htone & _).
  split; [apply Hclamp; reflexivity|]. split; [apply Hzero; reflexivity|].
  apply Htone.
Defined.

(** A4 (440 Hz) at the default divider and a 125 MHz clock. *)
Example calculate_wrap_a4 :
  calculate_wrap 125000000 440 CLK_DIV_DEFAULT = 2271.
Proof. reflexivity. Qed.

(** A very low frequency is clamped. *)
Example calculate_wrap_clamps :
  Float32.to_uint32 (wrap_float 125000000 10 CLK_DIV_DEFAULT) = 99999 /\
  calculate_wrap 125000000 10 CLK_DIV_DEFAULT = 65535.
Proof. split; reflexivity. Qed.

End BuzzerFacts.

(** ** Input handling and playback *)

Section PlayerFacts.

Import JoystickPi Genius.

Variable melodies : list Melody.
Implicit Types (w : World) (js : joystick_state_t) (selected : Melody).

(** Reduce projections of updated worlds, leaving arithmetic alone. *)
Ltac fields :=
  cbn [buttons player timer calls index a_pressed b_pressed
       current_note is_playing next_note_time freq_mult current_freq
       with_buttons with_player set_index set_a_pressed set_b_pressed
       set_current_note set_is_playing set_next_note_time set_freq_mult
       set_current_freq emit elapse sleep_ms play_tone make_timeout_time_ms
       fst snd negb] in *.

Lemma update_sound_paused js w :
  is_playing (player w) = false ->
  update_sound melodies js w = Some (emit (Pwm_set_gpio_level BUZZER_PIN 0) w).
Proof. intros Hp. unfold update_sound. by rewrite Hp. Qed.

Lemma update_sound_waiting js w :
  is_playing (player w) = true ->
  PicoTime.time_reached (timer w) (next_note_time (player w)) = false ->
  update_sound melodies js w = Some (set_freq_mult (bend js) w).
Proof.
  intros Hp Ht. unfold update_sound. rewrite Hp. fields. by rewrite Ht.
Qed.

Lemma update_sound_finished js w selected :
  is_playing (player w) = true ->
  PicoTime.time_reached (timer w) (next_note_time (player w)) = true ->
  CArray.get melodies (index (buttons w)) = Some selected ->
  length selected <= current_note (player w) ->
  update_sound melodies js w =
    Some (set_is_playing false (set_freq_mult (bend js) w)).
Proof.
  intros Hp Ht Hsel Hend. unfold update_sound. rewrite Hp. fields.
  rewrite Ht, Hsel. simpl.
  by destruct (Z.leb_spec (length selected) (current_note (player w))); [|lia].
Qed.

(** A due note inside the melody: the tone or the rest is issued, the
    note index moves on by one and the next deadline is set from the
    timer as it reads once the tone or rest is over. *)
Lemma update_sound_note js w selected original duration :
  is_playing (player w) = true ->
  PicoTime.time_reached (timer w) (next_note_time (player w)) = true ->
  CArray.get melodies (index (buttons w)) = Some selected ->
  current_note (player w) < length selected ->
  CArray.get (melody selected) (current_note (player w)) = Some original ->
  CArray.get (durations selected) (current_note (player w)) = Some duration ->
  let effective :=
    if 0 <? original
    then Float32.to_int32 (Float32.mul (Float32.of_Z original) (bend js))
    else 0 in
  let command :=
    if 0 <? original
    then Play_tone BUZZER_PIN (CInt.to_uint32 effective) (CInt.to_uint32 duration)
    else Sleep_ms (CInt.to_uint32 duration) in
  exists w',
    update_sound melodies js w = Some w' /\
    buttons w' = buttons w /\
    is_playing (player w') = true /\
    current_note (player w') = current_note (player w) + 1 /\
    freq_mult (player w') = bend js /\
    current_freq (player w') = effective /\
    calls w' = calls w ++ [command] /\
    timer w' = CInt.to_uint64 (timer w + CInt.to_uint32 duration * 1000) /\
    next_note_time (player w') =
      PicoTime.delayed_by_ms (timer w') (CInt.to_uint32 duration).
Proof.
  intros Hp Ht Hsel Hin Hnote Hdur. unfold update_sound. rewrite Hp. fields.
  rewrite Ht, Hsel. simpl.
  destruct (Z.leb_spec (length selected) (current_note (player w))); [lia|].
  rewrite Hnote, Hdur. simpl.
  destruct (0 <? original); eexists; (split; [reflexivity|]); fields;
    by repeat split.
Qed.

(** C9.  While paused, [update_sound] commands the buzzer pin to level
    zero and does nothing else: the buttons, the timer and every field
    of the player (multiplier, note index, displayed frequency,
    deadline) are as before. *)
Theorem paused_update_only_silences js w :
  is_playing (player w) = false ->
  exists w',
    update_sound melodies js w = Some w' /\
    calls w' = calls w ++ [Pwm_set_gpio_level BUZZER_PIN 0] /\
    player w' = player w /\
    buttons w' = buttons w /\
    timer w' = timer w.
Proof.
  intros Hp. eexists. split; [by apply update_sound_paused|]. by repeat split.
Qed.

(** Reads of the selected melody's tables stay below its [length]: the
    tables can be cut there without changing what [update_sound] does. *)
Lemma update_sound_reads_below_length js w :
  update_sound (truncated <$> melodies) js w = update_sound melodies js w.
Proof.
  unfold update_sound. destruct (is_playing (player w)); [|reflexivity]. fields.
  destruct (PicoTime.time_reached _ _); [|reflexivity].
  assert (Hget : CArray.get (truncated <$> melodies) (index (buttons w)) =
                 truncated <$> CArray.get melodies (index (buttons w))).
  { unfold CArray.get. destruct (0 <=? index (buttons w)); [|reflexivity].
    apply list_lookup_fmap. }
  rewrite Hget. destruct (CArray.get melodies _) as [selected|]; [|reflexivity].
  simpl.
  destruct (Z.leb_spec (length selected) (current_note (player w))); [reflexivity|].
  by rewrite !get_take.
Qed.

(** On a well-formed melody and a note index that is not negative,
    [update_sound] stays inside both tables. *)
Lemma update_sound_in_bounds js w selected :
  CArray.get melodies (index (buttons w)) = Some selected ->
  well_formed selected ->
  0 <= current_note (player w) ->
  is_Some (update_sound melodies js w).
Proof.
  intros Hsel [Hm Hd] Hnote.
  destruct (is_playing (player w)) eqn:Hp;
    [|by rewrite update_sound_paused].
  destruct (PicoTime.time_reached (timer w) (next_note_time (player w))) eqn:Ht;
    [|by rewrite update_sound_waiting].
  destruct (Z.leb_spec (length selected) (current_note (player w))) as [Hend|Hin].
  - by erewrite update_sound_finished.
  - destruct (get_in_bounds (melody selected) (current_note (player w)))
      as [original Horiginal]; [lia|].
    destruct (get_in_bounds (durations selected) (current_note (player w)))
      as [duration Hduration]; [lia|].
    destruct (update_sound_note js w selected original duration)
      as (w' & Hrun & _); [done..|].
    by exists w'.
Qed.

(** C4, as the code has it.  With the note index at or beyond the
    selected melody's length, a playing [update_sound] whose deadline
    has been reached pauses the player, keeps the note index and issues
    no command; before the deadline it stays playing; in neither case is
    a table entry read, and in general no read of the tables is at or
    beyond [length]. *)
Theorem end_of_melody_pauses js w selected :
  CArray.get melodies (index (buttons w)) = Some selected ->
  length selected <= current_note (player w) ->
  is_playing (player w) = true ->
  (exists w',
     update_sound melodies js w = Some w' /\
     is_playing (player w') =
       negb (PicoTime.time_reached (timer w) (next_note_time (player w))) /\
     current_note (player w') = current_note (player w) /\
     calls w' = calls w /\
     buttons w' = buttons w /\ timer w' = timer w /\
     next_note_time (player w') = next_note_time (player w) /\
     current_freq (player w') = current_freq (player w)) /\
  (forall w0 : World,
     update_sound (truncated <$> melodies) js w0 = update_sound melodies js w0).
Proof.
  intros Hsel Hend Hp. split; [|intros w0; apply update_sound_reads_below_length].
  destruct (PicoTime.time_reached (timer w) (next_note_time (player w))) eqn:Ht.
  - eexists. split; [by eapply update_sound_finished|]. by repeat split.
  - eexists. split; [by eapply update_sound_waiting|]. by repeat split.
Qed.

(** C5, as the code has it.  For a due note with a positive stored
    frequency, the frequency recorded and passed to [play_tone] is the
    single-precision product of the note and the multiplier converted to
    [int], which discards the fraction: it is never above the product
    and, below [2^31], less than one under it.  With the multiplier at
    1.5 (the stick at 4095) the note 440 gives 660. *)
Theorem effective_frequency_truncates js w selected original duration :
  is_playing (player w) = true ->
  PicoTime.time_reached (timer w) (next_note_time (player w)) = true ->
  CArray.get melodies (index (buttons w)) = Some selected ->
  current_note (player w) < length selected ->
  CArray.get (melody selected) (current_note (player w)) = Some original ->
  CArray.get (durations selected) (current_note (player w)) = Some duration ->
  0 < original ->
  0 <= x js ->
  let product := Float32.mul (Float32.of_Z original) (bend js) in
  exists w',
    update_sound melodies js w = Some w' /\
    freq_mult (player w') = bend js /\
    current_freq (player w') = Float32.to_int32 product /\
    calls w' =
      calls w ++ [Play_tone BUZZER_PIN (CInt.to_uint32 (Float32.to_int32 product))
                            (CInt.to_uint32 duration)] /\
    Float32.is_negative product = false /\
    0 <= Float32.to_int32 product /\
    (Float32.is_finite product = true ->
       (inject_Z (Float32.to_int32 product) <= Float32.to_Q product)%Q /\
       ((Float32.to_Q product < inject_Z (2 ^ 31))%Q ->
          (Float32.to_Q product < inject_Z (Float32.to_int32 product + 1))%Q)) /\
    (original = 440 ->
       bend js = Float32.add (Float32.of_Z 1) Float32.half ->
       Float32.to_int32 product = 660).
Proof.
  intros Hp Ht Hsel Hin Hnote Hdur Hpos Hx product.
  destruct (update_sound_note js w selected original duration)
    as (w' & Hrun & _ & _ & _ & Hmult & Hfreq & Hcalls & _); try done.
  destruct (Z.ltb_spec 0 original); [|lia].
  assert (Hsign : Float32.is_negative product = false).
  { apply mul_nonneg; [apply of_Z_nonneg; lia|].
    apply add_nonneg; [reflexivity|].
    apply div_nonneg; [by apply of_Z_nonneg|reflexivity]. }
  exists w'. repeat (split; [done|]). split; [by apply to_int32_nonneg|]. split.
  - intros Hfin. destruct product as [s|s| |s m e] eqn:Hprod; try discriminate.
    + simpl. split; [done|]. intros _. reflexivity.
    + simpl in Hsign. subst s. apply to_int32_floor.
  - intros -> Hbend. subst product. rewrite Hbend. reflexivity.
Qed.

(** *** The buttons *)

Lemma next_index_in_catalog w :
  0 <= index (buttons w) < catalog_length melodies ->
  catalog_length melodies <= CInt.INT32_MAX ->
  CInt.to_uint32 (index (buttons w) + 1) mod catalog_length melodies =
    (index (buttons w) + 1) mod catalog_length melodies /\
  is_Some (CArray.get melodies
             ((index (buttons w) + 1) mod catalog_length melodies)).
Proof.
  intros Hidx Hlen. split.
  - rewrite to_uint32_fits; [done|].
    unfold CInt.is_uint32, CInt.UINT32_MAX, CInt.INT32_MAX in *. lia.
  - apply get_in_bounds. fold (catalog_length melodies).
    apply Z.mod_pos_bound. lia.
Qed.

(** C2, as the code has it.  Consuming the button-A flag moves the
    selection to [(selection + 1) mod catalog_length], announces the
    melody and clears the flag.  With no play/pause press pending the
    player ends paused and the note index is left as it was; with one
    pending, the toggle that follows in the same pass starts the new
    melody at note 0. *)
Theorem melody_advance w :
  a_pressed (buttons w) = true ->
  0 <= index (buttons w) < catalog_length melodies ->
  catalog_length melodies <= CInt.INT32_MAX ->
  exists w' selected,
    handle_input melodies w = Some w' /\
    index (buttons w') = (index (buttons w) + 1) mod catalog_length melodies /\
    CArray.get melodies (index (buttons w')) = Some selected /\
    calls w' = calls w ++ [Printf_selected (name selected)] /\
    a_pressed (buttons w') = false /\
    b_pressed (buttons w') = false /\
    (b_pressed (buttons w) = false ->
       is_playing (player w') = false /\
       current_note (player w') = current_note (player w)) /\
    (b_pressed (buttons w) = true ->
       is_playing (player w') = true /\
       current_note (player w') = 0).
Proof.
  intros Ha Hidx Hlen.
  destruct (next_index_in_catalog w Hidx Hlen) as [Hnext [selected Hsel]].
  exists (let w1 := set_is_playing false
                      (set_a_pressed false
                         (emit (Printf_selected (name selected))
                            (set_index ((index (buttons w) + 1)
                                          mod catalog_length melodies) w))) in
          if b_pressed (buttons w)
          then set_b_pressed false
                 (set_current_note 0
                    (set_is_playing (negb (is_playing (player w1))) w1))
          else w1), selected.
  split.
  - unfold handle_input. rewrite Ha.
    destruct (Z.eqb_spec (catalog_length melodies) 0); [lia|].
    rewrite Hnext. fields. rewrite Hsel. simpl. fields.
    by destruct (b_pressed (buttons w)).
  - destruct (b_pressed (buttons w)) eqn:Hb; fields; rewrite ?Hb;
      repeat split; try done.
Qed.

(** C7.  Consuming the button-B flag inverts [is_playing] and sets the
    note index to 0, whichever way the toggle goes; the rest of the
    state is untouched.  When a button-A press is consumed in the same
    pass, the value inverted is the [false] that branch has just
    written. *)
Theorem play_pause_toggle w :
  b_pressed (buttons w) = true ->
  (a_pressed (buttons w) = false ->
     exists w',
       handle_input melodies w = Some w' /\
       is_playing (player w') = negb (is_playing (player w)) /\
       current_note (player w') = 0 /\
       b_pressed (buttons w') = false /\
       a_pressed (buttons w') = false /\
       index (buttons w') = index (buttons w) /\
       next_note_time (player w') = next_note_time (player w) /\
       freq_mult (player w') = freq_mult (player w) /\
       current_freq (player w') = current_freq (player w) /\
       calls w' = calls w /\
       timer w' = timer w) /\
  (forall w',
     handle_input melodies w = Some w' ->
     current_note (player w') = 0 /\
     b_pressed (buttons w') = false /\
     is_playing (player w') =
       negb (if a_pressed (buttons w) then false else is_playing (player w))).
Proof.
  intros Hb. split.
  - intros Ha. eexists. split.
    + unfold handle_input. rewrite Ha. simpl. rewrite Hb. reflexivity.
    + fields. by repeat split.
  - intros w'. unfold handle_input. destruct (a_pressed (buttons w)).
    + destruct (catalog_length melodies =? 0); [discriminate|]. fields.
      destruct (CArray.get melodies _) as [selected|]; [|discriminate].
      simpl. fields. rewrite Hb. intros [= <-]. fields. by repeat split.
    + simpl. rewrite Hb. intros [= <-]. fields. by repeat split.
Qed.

(** *** Polling on time *)

Lemma to_uint64_fits z : 0 <= z <= CInt.INT64_MAX -> CInt.to_uint64 z = z.
Proof.
  unfold CInt.INT64_MAX, CInt.to_uint64. intros Hz. apply Z.mod_small. lia.
Qed.

Lemma delayed_by_ms_fits t ms :
  0 <= t -> 0 <= ms -> t + ms * 1000 <= CInt.INT64_MAX ->
  PicoTime.delayed_by_ms t ms = t + ms * 1000.
Proof.
  intros Ht Hms Hfit. unfold PicoTime.delayed_by_ms.
  rewrite to_uint64_fits by lia.
  by destruct (Z.ltb_spec CInt.INT64_MAX (t + ms * 1000)); [lia|].
Qed.



(** *** The three-note scenario *)

Local Arguments Float32.mul : simpl never.
Local Arguments Float32.of_Z : simpl never.
Local Arguments Float32.to_int32 : simpl never.
Local Arguments CInt.to_uint32 : simpl never.
Local Arguments bend : simpl never.


Lemma sounded_app cs cs' : sounded (cs ++ cs') = sounded cs ++ sounded cs'.
Proof. apply List.filter_app. Qed.

Section ThreeNotes.

Variable i : Z.
Variable selected : Melody.
Hypothesis Hselected : CArray.get melodies i = Some selected.
Hypothesis Hmelody : melody selected = [440; 0; 880].
Hypothesis Hdurations : durations selected = [200; 100; 300].
Hypothesis Hlength : length selected = 3.




End ThreeNotes.
End PlayerFacts.

(** ** The properties at concrete inputs *)

Section Instances.

Import Genius.

Lemma debounce_dispatch_witness :
  5 < GpioIrqManager.MAX_GPIO_PINS /\
  200 * 1000 < 1300000 - 1000000 /\
  exists st',
    GpioIrqManager.gpio_irq_handler 1300000 5 4 Scenario.button_a_registered =
      Some (st', [GpioIrqManager.Invoke btn_a_callback]) /\
    GpioIrqManager.dispatch_all 5 4 [1300000; 1450000]
      Scenario.button_a_registered =
      Some (st', [GpioIrqManager.Invoke btn_a_callback]).
Proof.
  assert (Hpin : 5 < GpioIrqManager.MAX_GPIO_PINS) by reflexivity.
  assert (Hlong : 200 * 1000 < 1300000 - 1000000) by reflexivity.
  split; [exact Hpin|]. split; [exact Hlong|].
  destruct (debounce_dispatch Scenario.button_a_registered 5 btn_a_callback
              1000000 1300000 4 Hpin eq_refl eq_refl) as [Haccept _].
  - lia.
  - vm_compute. discriminate.
  - destruct (Haccept Hlong) as (st' & Hrun & _ & _ & Htwice).
    exists st'. split; [exact Hrun|]. apply Htwice.
    + vm_compute. split; discriminate.
    + vm_compute. discriminate.
Defined.

Lemma out_of_range_pin_is_ignored_witness :
  GpioIrqManager.MAX_GPIO_PINS <= 30 /\
  GpioIrqManager.register_gpio_callback 30 (Some btn_b_callback) 4
    Scenario.button_a_registered = Some (Scenario.button_a_registered, []) /\
  GpioIrqManager.remove_gpio_callback 30 4 Scenario.button_a_registered =
    Some (Scenario.button_a_registered, []) /\
  GpioIrqManager.gpio_irq_handler 1300000 30 4 Scenario.button_a_registered =
    Some (Scenario.button_a_registered, []).
Proof.
  assert (Hpin : GpioIrqManager.MAX_GPIO_PINS <= 30) by (vm_compute; discriminate).
  split; [exact Hpin|].
  exact (out_of_range_pin_is_ignored Scenario.button_a_registered 30
           (Some btn_b_callback) 4 1300000 4 Hpin).
Defined.

(** From boot, the callback of button B followed by one pass of
    [handle_input] starts playback at note 0. *)
Example button_b_starts_playback :
  handle_input Scenario.catalog (run_callback btn_b_callback boot) =
  Some (set_is_playing true boot).
Proof. reflexivity. Qed.

(** C2 as stated fails: consuming the button-A flag at note index 5
    moves the selection from the last melody to the first and pauses,
    and the note index is still 5. *)
Lemma melody_advance_keeps_note_index :
  handle_input Scenario.catalog
    (Scenario.world 2 5 true true false 0 0 (S754_zero false)) =
  Some {| buttons := {| index := 0; a_pressed := false; b_pressed := false |};
          player := {| current_note := 5; is_playing := false;
                       next_note_time := 0; freq_mult := S754_zero false;
                       current_freq := 0 |};
          timer := 0;
          calls := [Printf_selected "three notes"] |}.
Proof. reflexivity. Qed.

Lemma melody_advance_witness :
  a_pressed (buttons (Scenario.world 2 5 true true false 0 0 (S754_zero false)))
    = true /\
  exists w' selected,
    handle_input Scenario.catalog
      (Scenario.world 2 5 true true false 0 0 (S754_zero false)) = Some w' /\
    index (buttons w') = 0 /\
    CArray.get Scenario.catalog (index (buttons w')) = Some selected /\
    is_playing (player w') = false /\
    current_note (player w') = 5.
Proof.
  split; [reflexivity|].
  destruct (melody_advance Scenario.catalog
              (Scenario.world 2 5 true true false 0 0 (S754_zero false)))
    as (w' & selected & Hrun & Hidx & Hsel & _ & _ & _ & Hnot_b & _).
  - reflexivity.
  - vm_compute. split; [discriminate|reflexivity].
  - vm_compute. discriminate.
  - exists w', selected. destruct (Hnot_b eq_refl) as [Hpaused Hnote].
    repeat split; assumption.
Defined.

Lemma play_pause_toggle_witness :
  b_pressed (buttons (Scenario.world 1 5 true false true 0 0 (S754_zero false)))
    = true /\
  exists w',
    handle_input Scenario.catalog
      (Scenario.world 1 5 true false true 0 0 (S754_zero false)) = Some w' /\
    is_playing (player w') = false /\
    current_note (player w') = 0.
Proof.
  split; [reflexivity|].
  destruct (play_pause_toggle Scenario.catalog
              (Scenario.world 1 5 true false true 0 0 (S754_zero false))
              eq_refl) as [Halone _].
  destruct (Halone eq_refl) as (w' & Hrun & Hflip & Hnote & _).
  exists w'. repeat split; assumption.
Defined.

Lemma paused_update_only_silences_witness :
  is_playing (player (Scenario.world 0 2 false false false 5000 0 Float32.half))
    = false /\
  exists w',
    update_sound Scenario.catalog (Scenario.stick 4095)
      (Scenario.world 0 2 false false false 5000 0 Float32.half) = Some w' /\
    calls w' = [Pwm_set_gpio_level BUZZER_PIN 0] /\
    player w' = player (Scenario.world 0 2 false false false 5000 0 Float32.half).
Proof.
  split; [reflexivity|].
  destruct (paused_update_only_silences Scenario.catalog (Scenario.stick 4095)
              (Scenario.world 0 2 false false false 5000 0 Float32.half)
              eq_refl)
    as (w' & Hrun & Hcalls & Hplayer & _).
  exists w'. repeat split; assumption.
Defined.

(** C4 as stated fails: after the last note the player stays playing,
    with the note index equal to the melody's length, until the deadline
    set by that note is reached. *)
Lemma playing_past_the_end_before_deadline :
  length Scenario.three_notes <= 3 /\
  update_sound Scenario.catalog (Scenario.stick 2048)
    (Scenario.world 0 3 true false false 900000 1200000 (S754_zero false)) =
  Some {| buttons := {| index := 0; a_pressed := false; b_pressed := false |};
          player := {| current_note := 3; is_playing := true;
                       next_note_time := 1200000;
                       freq_mult := bend (Scenario.stick 2048);
                       current_freq := 0 |};
          timer := 900000;
          calls := [] |}.
Proof. split; [vm_compute; discriminate|reflexivity]. Qed.

Lemma end_of_melody_pauses_witness :
  length Scenario.three_notes <= 3 /\
  exists w',
    update_sound Scenario.catalog (Scenario.stick 2048)
      (Scenario.world 0 3 true false false 1200000 1200000 (S754_zero false))
      = Some w' /\
    is_playing (player w') = false /\
    current_note (player w') = 3 /\
    calls w' = [].
Proof.
  assert (Hend : length Scenario.three_notes <= 3) by (vm_compute; discriminate).
  split; [exact Hend|].
  destruct (end_of_melody_pauses Scenario.catalog (Scenario.stick 2048)
              (Scenario.world 0 3 true false false 1200000 1200000
                 (S754_zero false))
              Scenario.three_notes eq_refl Hend eq_refl)
    as [(w' & Hrun & Hpaused & Hnote & Hcalls & _) _].
  exists w'. repeat split; assumption.
Defined.

(** C5 as stated fails: with the stick at 2047 the product of 440 and
    the multiplier is about 439.95; the frequency sent and recorded is
    439, where rounding gives 440. *)
Lemma bent_frequency_is_not_rounded :
  update_sound Scenario.catalog (Scenario.stick 2047)
    (Scenario.world 0 0 true false false 0 0 (S754_zero false)) =
  Some {| buttons := {| index := 0; a_pressed := false; b_pressed := false |};
          player := {| current_note := 1; is_playing := true;
                       next_note_time := 400000;
                       freq_mult := bend (Scenario.stick 2047);
                       current_freq := 439 |};
          timer := 200000;
          calls := [Play_tone BUZZER_PIN 439 200] |} /\
  Float32.mul (Float32.of_Z 440) (bend (Scenario.stick 2047)) =
    S754_finite false 14416160 (-15) /\
  Float32.round_nearest
    (Float32.mul (Float32.of_Z 440) (bend (Scenario.stick 2047))) = 440.
Proof. repeat split. Qed.

Lemma effective_frequency_truncates_witness :
  0 < 440 /\
  bend (Scenario.stick 4095) = Float32.add (Float32.of_Z 1) Float32.half /\
  exists w',
    update_sound Scenario.catalog (Scenario.stick 4095)
      (Scenario.world 0 0 true false false 0 0 (S754_zero false)) = Some w' /\
    current_freq (player w') = 660 /\
    calls w' = [Play_tone BUZZER_PIN 660 200] /\
    (inject_Z 660 <=
       Float32.to_Q (Float32.mul (Float32.of_Z 440) (bend (Scenario.stick 4095)))
     < inject_Z 661)%Q.
Proof.
  split; [reflexivity|]. split; [reflexivity|].
  destruct (effective_frequency_truncates Scenario.catalog (Scenario.stick 4095)
              (Scenario.world 0 0 true false false 0 0 (S754_zero false))
              Scenario.three_notes 440 200
              eq_refl eq_refl eq_refl eq_refl eq_refl eq_refl eq_refl)
    as (w' & Hrun & _ & Hfreq & Hcalls & _ & _ & Hfloor & H660).
  - vm_compute. discriminate.
  - exists w'. rewrite (H660 eq_refl eq_refl) in Hfreq, Hcalls, Hfloor.
    destruct (Hfloor eq_refl) as [Hbelow Habove].
    split; [exact Hrun|]. split; [exact Hfreq|]. split; [exact Hcalls|].
    split; [exact Hbelow|]. apply Habove. reflexivity.
Defined.



End Instances.

(** * Further properties *)

(** ** More on the dispatch layer *)

Section DispatchLaws.

Import GpioIrqManager.
Context {fn : Type}.
Implicit Types (st : tables fn) (f : fn) (callback : option fn).

Lemma get_set_other {A : Type} (a : list A) (i j : Z) (v : A) :
  0 <= i -> i <> j -> CArray.get (<[Z.to_nat i := v]> a) j = CArray.get a j.
Proof.
  intros Hi Hne. unfold CArray.get.
  destruct (Z.leb_spec 0 j); [|reflexivity].
  apply list_lookup_insert_ne. lia.
Qed.


(** X1.  On a valid pin the last registration wins: registering one
    callback and then another leaves exactly the tables that registering
    the second alone leaves, with the second in the pin's slot, every
    other slot and every timestamp as before. *)
Theorem register_last_wins st p first second mask1 mask2 :
  well_formed st ->
  0 <= p < MAX_GPIO_PINS ->
  exists st1 st2,
    register_gpio_callback p first mask1 st =
      Some (st1, [Gpio_set_irq_enabled p mask1 true]) /\
    register_gpio_callback p second mask2 st1 =
      Some (st2, [Gpio_set_irq_enabled p mask2 true]) /\
    register_gpio_callback p second mask2 st =
      Some (st2, [Gpio_set_irq_enabled p mask2 true]) /\
    CArray.get (callbacks st2) p = Some second /\
    (forall q, q <> p ->
       CArray.get (callbacks st2) q = CArray.get (callbacks st) q) /\
    last_interrupt_time st2 = last_interrupt_time st.
Proof.
  intros [Hc Ht] Hp.
  exists {| callbacks := <[Z.to_nat p := first]> (callbacks st);
            last_interrupt_time := last_interrupt_time st |},
         {| callbacks := <[Z.to_nat p := second]> (callbacks st);
            last_interrupt_time := last_interrupt_time st |}.
  unfold register_gpio_callback.
  destruct (Z.ltb_spec p MAX_GPIO_PINS); [|lia]. simpl.
  rewrite !set_in_bounds by (rewrite ?length_insert; lia). simpl.
  rewrite list_insert_insert_eq. repeat (split; [reflexivity|]).
  split; [apply get_set_same; lia|]. split; [|reflexivity].
  intros q Hq. apply get_set_other; lia.
Qed.

(** X2.  Removing undoes registering: on a valid pin whose slot is
    empty, registering a callback and removing it again gives back the
    tables as they were, and from then on an interrupt on the pin runs
    nothing, whatever the time. *)
Theorem remove_undoes_register st p callback mask :
  well_formed st ->
  0 <= p < MAX_GPIO_PINS ->
  CArray.get (callbacks st) p = Some None ->
  exists st1,
    register_gpio_callback p callback mask st =
      Some (st1, [Gpio_set_irq_enabled p mask true]) /\
    remove_gpio_callback p mask st1 =
      Some (st, [Gpio_set_irq_enabled p mask false]) /\
    forall now events, gpio_irq_handler now p events st = Some (st, []).
Proof.
  intros [Hc Ht] Hp Hempty.
  exists {| callbacks := <[Z.to_nat p := callback]> (callbacks st);
            last_interrupt_time := last_interrupt_time st |}.
  unfold register_gpio_callback, remove_gpio_callback.
  destruct (Z.ltb_spec p MAX_GPIO_PINS); [|lia]. simpl.
  rewrite !set_in_bounds by (rewrite ?length_insert; lia). simpl.
  split; [reflexivity|].
  rewrite list_insert_insert_eq, list_insert_id.
  - split; [by destruct st|]. intros now events.
    apply handler_unregistered; [lia|exact Hempty].
  - unfold CArray.get in Hempty. by destruct (0 <=? p).
Qed.

Lemma perform_in_bounds op st :
  well_formed st -> pin_is_uint op ->
  exists st' out, perform op st = Some (st', out) /\ well_formed st'.
Proof.
  intros Hwf Hpin. destruct op as [|gpio callback mask|gpio mask|now gpio events];
    simpl in *.
  - by exists st, [].
  - destruct (Z.ltb_spec gpio MAX_GPIO_PINS) as [Hin|Hout].
    + destruct (register_stores st gpio callback mask Hwf)
        as (st' & Hrun & _ & _ & Hwf'); [lia|]. eauto.
    + exists st, []. split; [|done]. unfold register_gpio_callback.
      by destruct (Z.ltb_spec gpio MAX_GPIO_PINS); [lia|].
  - destruct (Z.ltb_spec gpio MAX_GPIO_PINS) as [Hin|Hout].
    + destruct (remove_clears st gpio mask Hwf)
        as (st' & Hrun & _ & _ & Hwf'); [lia|]. eauto.
    + exists st, []. split; [|done]. unfold remove_gpio_callback.
      by destruct (Z.ltb_spec gpio MAX_GPIO_PINS); [lia|].
  - by apply handler_in_bounds.
Qed.

(** X3.  Starting from well-formed tables, no sequence of calls and
    interrupts, with whatever pin numbers, ever reads or writes outside
    the two 30-entry tables, and the tables stay well formed. *)
Theorem layer_stays_in_bounds ops st :
  well_formed st ->
  Forall pin_is_uint ops ->
  exists st' out, perform_all ops st = Some (st', out) /\ well_formed st'.
Proof.
  intros Hwf Hpins. revert st Hwf.
  induction Hpins as [|op ops Hop _ IH]; intros st Hwf.
  - by exists st, [].
  - destruct (perform_in_bounds op st Hwf Hop) as (st1 & out1 & Hrun1 & Hwf1).
    destruct (IH st1 Hwf1) as (st2 & out2 & Hrun2 & Hwf2).
    exists st2, (out1 ++ out2). split; [|done].
    simpl. rewrite Hrun1. simpl. by rewrite Hrun2.
Qed.


Lemma get_element {A : Type} (a : list A) (i : Z) (x : A) :
  CArray.get a i = Some x -> x ∈ a.
Proof.
  unfold CArray.get. destruct (0 <=? i); [|discriminate].
  intros Hx. apply list_elem_of_lookup. eauto.
Qed.



Lemma ascending_from_earlier from from' nows :
  from' <= from -> ascending from nows -> ascending from' nows.
Proof. destruct nows; simpl; [done|]. intros ? [? ?]. split; [lia|done]. Qed.

(** X5.  The debounce limits the rate at which a pin's callback runs:
    over interrupts whose timer readings do not go back and end by
    [upper], the callback runs only [count] times with
    [count * 200001 <= upper - last], [last] being the pin's timestamp at
    the start; nothing else is invoked. *)
Theorem invocations_are_rate_limited st p f last upper nows events :
  p < MAX_GPIO_PINS ->
  CArray.get (callbacks st) p = Some (Some f) ->
  CArray.get (last_interrupt_time st) p = Some last ->
  0 <= last <= upper ->
  upper <= CInt.INT64_MAX ->
  ascending last nows ->
  Forall (fun now => now <= upper) nows ->
  exists st' count,
    dispatch_all p events nows st = Some (st', replicate count (Invoke f)) /\
    Z.of_nat count * (200 * 1000 + 1) <= upper - last.
Proof.
  intros Hp Hcb Hlast Hrange Hupper Hasc Hall.
  revert st last Hcb Hlast Hrange Hasc.
  induction Hall as [|now nows Hnow _ IH]; intros st last Hcb Hlast Hrange Hasc.
  - exists st, 0%nat. split; [reflexivity|]. simpl. lia.
  - destruct Hasc as [Hle Hasc]. simpl.
    assert (Hdiff : PicoTime.absolute_time_diff_us last now = now - last)
      by (apply absolute_time_diff_us_elapsed; lia).
    destruct (Z.ltb_spec (200 * 1000) (now - last)) as [Hlong|Hshort].
    + rewrite (handler_accepts st p f last now events)
        by (done || (rewrite Hdiff; exact Hlong)).
      simpl.
      destruct (IH {| callbacks := callbacks st;
                      last_interrupt_time :=
                        <[Z.to_nat p := now]> (last_interrupt_time st) |} now)
        as (st' & count & Hrun & Hcount); simpl; try done; try lia.
      { apply get_set_same. by eapply get_Some_bounds. }
      rewrite Hrun. simpl. exists st', (S count). split; [reflexivity|]. lia.
    + rewrite (handler_vetoes st p f last now events)
        by (done || (rewrite Hdiff; exact Hshort)).
      simpl.
      destruct (IH st last) as (st' & count & Hrun & Hcount); try done.
      { by apply ascending_from_earlier with now. }
      rewrite Hrun. simpl. by exists st', count.
Qed.

End DispatchLaws.

(** ** Buttons and start-up *)

Section ButtonFacts.

Import GpioIrqManager ButtonPi.

(** X6.  A button attached on a valid pin fires: after
    [ButtonPi_attach_callback], the tables are still well formed and an
    interrupt on the button's pin more than 200 ms after the pin's
    timestamp runs the attached callback once and nothing else.  On a pin
    number of 30 or more the manager is still initialised but the tables
    are untouched, and an interrupt there runs nothing. *)
Theorem attached_button_fires {fn : Type} (st : tables fn) btn (f : fn) :
  well_formed st ->
  0 <= pin btn ->
  (pin btn < 30 ->
     exists st1,
       ButtonPi_attach_callback btn (Some f) st =
         Some (st1, gpio_irq_manager_init ++
                    [PicoSdk.Gpio_set_irq_enabled (pin btn)
                       PicoSdk.GPIO_IRQ_EDGE_FALL true]) /\
       well_formed st1 /\
       forall last now events,
         CArray.get (last_interrupt_time st) (pin btn) = Some last ->
         0 <= last <= now -> now <= CInt.INT64_MAX ->
         200 * 1000 < now - last ->
         exists st2,
           gpio_irq_handler now (pin btn) events st1 = Some (st2, [Invoke f])) /\
  (30 <= pin btn ->
     ButtonPi_attach_callback btn (Some f) st = Some (st, gpio_irq_manager_init) /\
     forall now events,
       gpio_irq_handler now (pin btn) events st = Some (st, [])).
Proof.
  intros Hwf Hpin. unfold ButtonPi_attach_callback. split.
  - intros Hin. destruct (Z.ltb_spec (pin btn) 30); [|lia].
    destruct (register_stores st (pin btn) (Some f) PicoSdk.GPIO_IRQ_EDGE_FALL Hwf)
      as (st1 & Hreg & Hslot & Htimes & Hwf1); [done|].
    rewrite Hreg. simpl. exists st1.
    split; [reflexivity|]. split; [exact Hwf1|].
    intros last now events Hlast Hrange Hnow Hlong. eexists.
    apply handler_accepts with (last := last); [done|exact Hslot| |].
    + by rewrite Htimes.
    + by rewrite absolute_time_diff_us_elapsed.
  - intros Hout. destruct (Z.ltb_spec (pin btn) 30); [lia|].
    split; [reflexivity|]. intros now events. unfold gpio_irq_handler.
    by destruct (Z.ltb_spec (pin btn) MAX_GPIO_PINS);
      [unfold MAX_GPIO_PINS in *; lia|].
Qed.

End ButtonFacts.

Section StartupFacts.

Import GpioIrqManager Genius.

(** The tables [init_hardware] leaves when it starts from the
    zero-initialised ones. *)
Lemma init_hardware_tables level_a level_b :
  exists calls,
    init_hardware level_a level_b GpioIrqManager.boot =
      Some ({| callbacks :=
                 <[6%nat := Some btn_b_callback]>
                   (<[5%nat := Some btn_a_callback]> (replicate 30 None));
               last_interrupt_time := replicate 30 0 |}, calls).
Proof. eexists. reflexivity. Qed.

(** X7.  How [init_hardware] wires the buttons.  Started on the
    zero-initialised tables it leaves button A's callback on pin 5, button
    B's on pin 6 and every other slot empty.  The first interrupt after
    that, at timer reading [now], sets [a_pressed] on pin 5 and
    [b_pressed] on pin 6 provided [now] is more than 200 ms after boot;
    on any other pin, or within the first 200 ms, it changes nothing. *)
Theorem init_hardware_wires_buttons level_a level_b w now gpio events :
  0 <= gpio ->
  0 <= now <= CInt.INT64_MAX ->
  exists st calls m,
    init_hardware level_a level_b GpioIrqManager.boot = Some (st, calls) /\
    GpioIrqManager.well_formed st /\
    interrupt now gpio events {| machine_tables := st; machine_world := w |}
      = Some m /\
    machine_world m =
      (if 200 * 1000 <? now
       then if gpio =? BUTTON_A_PIN then set_a_pressed true w
            else if gpio =? BUTTON_B_PIN then set_b_pressed true w
            else w
       else w).
Proof.
  intros Hgpio Hnow.
  destruct (init_hardware_tables level_a level_b) as [calls Hinit].
  eexists _, calls.
  cut (exists m,
         interrupt now gpio events
           {| machine_tables :=
                {| callbacks :=
                     <[6%nat := Some btn_b_callback]>
                       (<[5%nat := Some btn_a_callback]> (replicate 30 None));
                   last_interrupt_time := replicate 30 0 |};
              machine_world := w |} = Some m /\
         machine_world m =
           (if 200 * 1000 <? now
            then if gpio =? BUTTON_A_PIN then set_a_pressed true w
                 else if gpio =? BUTTON_B_PIN then set_b_pressed true w
                 else w
            else w)).
  { intros (m & Hm). exists m. split; [exact Hinit|]. split; [by split|exact Hm]. }
  unfold interrupt. cbn [machine_tables machine_world].
  set (st := {| callbacks := _; last_interrupt_time := _ |}).
  assert (Hlast : forall q, 0 <= q < 30 ->
            CArray.get (last_interrupt_time st) q = Some 0).
  { intros q Hq. unfold CArray.get. destruct (Z.leb_spec 0 q); [|lia].
    apply lookup_replicate_2. lia. }
  assert (Hdiff : PicoTime.absolute_time_diff_us 0 now = now)
    by (rewrite absolute_time_diff_us_elapsed; lia).
  assert (Hslot : forall q, 0 <= q < 30 ->
            CArray.get (callbacks st) q =
              Some (if q =? 5 then Some btn_a_callback
                    else if q =? 6 then Some btn_b_callback else None)).
  { intros q Hq. unfold CArray.get. destruct (Z.leb_spec 0 q); [|lia].
    subst st. cbn [callbacks].
    destruct (Z.eqb_spec q 5) as [->|H5]; [reflexivity|].
    destruct (Z.eqb_spec q 6) as [->|H6]; [reflexivity|].
    rewrite !list_lookup_insert_ne by lia. apply lookup_replicate_2. lia. }
  assert (Hmax : MAX_GPIO_PINS = 30) by reflexivity.
  change BUTTON_A_PIN with 5. change BUTTON_B_PIN with 6.
  destruct (Z.ltb_spec gpio 30) as [Hin|Hout].
  - specialize (Hslot gpio ltac:(lia)). specialize (Hlast gpio ltac:(lia)).
    destruct (Z.eqb_spec gpio 5) as [H5|H5];
      [|destruct (Z.eqb_spec gpio 6) as [H6|H6]].
    3: { rewrite handler_unregistered by (done || lia). simpl.
         eexists. split; [reflexivity|]. by destruct (200 * 1000 <? now). }
    all: destruct (Z.ltb_spec (200 * 1000) now) as [Hlong|Hshort].
    all: first
      [ erewrite handler_accepts;
        [|lia|exact Hslot|exact Hlast|rewrite Hdiff; exact Hlong]
      | erewrite handler_vetoes;
        [|lia|exact Hslot|exact Hlast|rewrite Hdiff; exact Hshort] ].
    all: simpl; eexists; split; reflexivity.
  - unfold gpio_irq_handler.
    destruct (Z.ltb_spec gpio MAX_GPIO_PINS); [lia|].
    simpl. eexists. split; [reflexivity|]. simpl.
    destruct (Z.eqb_spec gpio 5); [lia|]. destruct (Z.eqb_spec gpio 6); [lia|].
    by destruct (200 * 1000 <? now).
Qed.

End StartupFacts.

(** ** More on input handling and playback *)

Section PlayerLaws.

Import JoystickPi Genius.

Variable melodies : list Melody.
Implicit Types (w : World) (js : joystick_state_t) (selected : Melody).

Ltac project :=
  cbn [buttons player timer calls index a_pressed b_pressed
       current_note is_playing next_note_time freq_mult current_freq
       with_buttons with_player set_index set_a_pressed set_b_pressed
       set_current_note set_is_playing set_next_note_time set_freq_mult
       set_current_freq emit elapse sleep_ms play_tone make_timeout_time_ms
       run_callback fst snd negb] in *.

(** What [handle_input] computes, branch by branch. *)
Lemma handle_input_cases w w' :
  handle_input melodies w = Some w' ->
  exists w1,
    (if a_pressed (buttons w)
     then exists selected,
            CArray.get melodies
              (CInt.to_uint32 (index (buttons w) + 1) mod catalog_length melodies)
              = Some selected /\
            w1 = set_is_playing false
                   (set_a_pressed false
                      (emit (Printf_selected (name selected))
                         (set_index
                            (CInt.to_uint32 (index (buttons w) + 1)
                               mod catalog_length melodies) w)))
     else w1 = w) /\
    w' = (if b_pressed (buttons w)
          then set_b_pressed false
                 (set_current_note 0
                    (set_is_playing (negb (is_playing (player w1))) w1))
          else w1).
Proof.
  unfold handle_input. destruct (a_pressed (buttons w)) eqn:Ha.
  - destruct (catalog_length melodies =? 0); [discriminate|]. project.
    destruct (CArray.get melodies _) as [selected|] eqn:Hsel; [|discriminate].
    simpl. project.
    destruct (b_pressed (buttons w)); intros [= <-];
      (eexists; split; [eauto|]; reflexivity).
  - simpl.
    destruct (b_pressed (buttons w)); intros [= <-];
      (eexists; split; [reflexivity|]; reflexivity).
Qed.

Lemma repeated_callback f more w :
  foldl (fun w f => run_callback f w) w (replicate (S more) f)
    = run_callback f w.
Proof.
  revert w. induction more as [|more IH]; intros w; [reflexivity|].
  change (replicate (S (S more)) f) with (f :: replicate (S more) f).
  cbn [foldl]. rewrite IH. by destruct f.
Qed.

(** X8.  A press is latched until the loop looks, counts once however
    often the button fired, and is consumed by the pass that sees it:
    after [handle_input] both flags are clear and a second call changes
    nothing; several callbacks of one button before a pass leave the same
    state as one. *)
Theorem presses_are_consumed_once w w' :
  handle_input melodies w = Some w' ->
  a_pressed (buttons w') = false /\
  b_pressed (buttons w') = false /\
  handle_input melodies w' = Some w' /\
  forall f more w0,
    foldl (fun w f => run_callback f w) w0 (replicate (S more) f)
      = run_callback f w0.
Proof.
  intros Hrun. destruct (handle_input_cases w w' Hrun) as (w1 & Hw1 & ->).
  assert (Hflags : a_pressed
            (buttons (if b_pressed (buttons w)
                      then set_b_pressed false
                             (set_current_note 0
                                (set_is_playing (negb (is_playing (player w1))) w1))
                      else w1)) = false /\
          b_pressed
            (buttons (if b_pressed (buttons w)
                      then set_b_pressed false
                             (set_current_note 0
                                (set_is_playing (negb (is_playing (player w1))) w1))
                      else w1)) = false).
  { destruct (a_pressed (buttons w)) eqn:Ha, (b_pressed (buttons w)) eqn:Hb.
    - destruct Hw1 as (selected & _ & ->). by project.
    - destruct Hw1 as (selected & _ & ->). by project.
    - subst w1. project. by rewrite Ha.
    - subst w1. by rewrite Ha, Hb. }
  destruct Hflags as [Ha' Hb']. split; [exact Ha'|]. split; [exact Hb'|]. split.
  - unfold handle_input. rewrite Ha'. simpl. by rewrite Hb'.
  - intros f more w0. apply repeated_callback.
Qed.

Lemma advance_once w :
  0 <= index (buttons w) < catalog_length melodies ->
  catalog_length melodies <= CInt.INT32_MAX ->
  exists w',
    handle_input melodies (run_callback btn_a_callback w) = Some w' /\
    index (buttons w') = (index (buttons w) + 1) mod catalog_length melodies /\
    a_pressed (buttons w') = false.
Proof.
  intros Hidx Hlen.
  destruct (next_index_in_catalog melodies w Hidx Hlen) as [Hnext [selected Hsel]].
  unfold handle_input. project.
  destruct (Z.eqb_spec (catalog_length melodies) 0); [lia|].
  rewrite Hnext, Hsel. simpl. project.
  destruct (b_pressed (buttons w)); eexists; (split; [reflexivity|]); by project.
Qed.

(** X9.  The selection cycles: [presses] consumed presses of button A
    move the selection from [index] to [(index + presses) mod
    catalog_length], so as many presses as there are melodies bring back
    the melody that was selected. *)
Theorem selection_cycles presses w :
  0 <= index (buttons w) < catalog_length melodies ->
  catalog_length melodies <= CInt.INT32_MAX ->
  exists w',
    press_and_handle melodies btn_a_callback presses w = Some w' /\
    index (buttons w') =
      (index (buttons w) + Z.of_nat presses) mod catalog_length melodies /\
    (Z.of_nat presses = catalog_length melodies ->
       index (buttons w') = index (buttons w)).
Proof.
  intros Hidx Hlen.
  assert (Hrun : exists w',
            press_and_handle melodies btn_a_callback presses w = Some w' /\
            index (buttons w') =
              (index (buttons w) + Z.of_nat presses) mod catalog_length melodies).
  { revert w Hidx. induction presses as [|presses IH]; intros w Hidx.
    - exists w. split; [reflexivity|]. rewrite Z.add_0_r, Z.mod_small; lia.
    - destruct (advance_once w Hidx Hlen) as (w1 & Hone & Hidx1 & _).
      destruct (IH w1) as (w' & Hrest & Hidx').
      { rewrite Hidx1. apply Z.mod_pos_bound. lia. }
      exists w'. split; [cbn [press_and_handle]; by rewrite Hone|].
      rewrite Hidx', Hidx1, Zplus_mod_idemp_l. f_equal. lia. }
  destruct Hrun as (w' & Hrun & Hidx'). exists w'.
  split; [exact Hrun|]. split; [exact Hidx'|].
  intros Hall. rewrite Hidx', Hall.
  rewrite <- (Z.mul_1_l (catalog_length melodies)) at 1.
  rewrite Z_mod_plus_full. apply Z.mod_small. lia.
Qed.

(** X10.  [presses] consumed presses of button B leave the player playing
    or paused according to the parity of [presses], always at note 0
    once there has been a press, and never change the selection. *)
Theorem toggle_parity presses w :
  a_pressed (buttons w) = false ->
  exists w',
    press_and_handle melodies btn_b_callback presses w = Some w' /\
    is_playing (player w') = xorb (is_playing (player w)) (Nat.odd presses) /\
    (presses <> 0%nat -> current_note (player w') = 0) /\
    index (buttons w') = index (buttons w) /\
    a_pressed (buttons w') = false.
Proof.
  revert w. induction presses as [|presses IH]; intros w Ha.
  - exists w. split; [reflexivity|]. rewrite xorb_false_r. by repeat split.
  - set (w1 := set_b_pressed false
                 (set_current_note 0
                    (set_is_playing (negb (is_playing (player w))) w))).
    assert (Hone : handle_input melodies (run_callback btn_b_callback w) = Some w1).
    { unfold handle_input. project. rewrite Ha. reflexivity. }
    destruct (IH w1) as (w' & Hrest & Hplay & Hnote & Hidx & Ha');
      [subst w1; by project|].
    exists w'. split; [cbn [press_and_handle]; by rewrite Hone|].
    subst w1. project. split.
    + rewrite Hplay, Nat.odd_succ, <- Nat.negb_odd.
      by destruct (is_playing (player w)), (Nat.odd presses).
    + split; [|by split]. intros _. destruct presses as [|presses'].
      * simpl in Hrest. by injection Hrest as <-.
      * by apply Hnote.
Qed.

(** X11.  Neither function reaches into the other's part of the state:
    [handle_input] sends no tone or rest and leaves the timer, the
    deadline, the multiplier and the displayed frequency as they are,
    and [update_sound] leaves the selection and both flags as they are. *)
Theorem input_and_sound_keep_apart w w' :
  (handle_input melodies w = Some w' ->
     sounded (calls w') = sounded (calls w) /\
     timer w' = timer w /\
     next_note_time (player w') = next_note_time (player w) /\
     freq_mult (player w') = freq_mult (player w) /\
     current_freq (player w') = current_freq (player w)) /\
  (forall js, update_sound melodies js w = Some w' -> buttons w' = buttons w).
Proof.
  split.
  - intros Hrun. destruct (handle_input_cases w w' Hrun) as (w1 & Hw1 & ->).
    assert (Hframe : sounded (calls w1) = sounded (calls w) /\
                     timer w1 = timer w /\
                     next_note_time (player w1) = next_note_time (player w) /\
                     freq_mult (player w1) = freq_mult (player w) /\
                     current_freq (player w1) = current_freq (player w)).
    { destruct (a_pressed (buttons w)); [|by subst w1].
      destruct Hw1 as (selected & _ & ->). project.
      rewrite sounded_app. simpl. by rewrite app_nil_r. }
    by destruct (b_pressed (buttons w)); project.
  - intros js. unfold update_sound.
    destruct (is_playing (player w)); simpl; [|by intros [= <-]]. project.
    destruct (PicoTime.time_reached _ _); [|by intros [= <-]].
    destruct (CArray.get melodies _) as [selected|]; simpl; [|discriminate].
    destruct (length selected <=? _); [by intros [= <-]|].
    destruct (CArray.get (melody selected) _) as [original|]; simpl;
      [|discriminate].
    destruct (CArray.get (durations selected) _) as [duration|]; simpl;
      [|discriminate].
    by destruct (0 <? original); intros [= <-].
Qed.

(** *** The loop keeps its indices in range *)

Lemma selected_is_well_formed (i : Z) selected :
  Forall well_formed melodies ->
  CArray.get melodies i = Some selected ->
  well_formed selected.
Proof.
  intros Hall Hsel. apply get_element in Hsel.
  by apply (proj1 (Forall_forall _ _) Hall).
Qed.

Lemma handle_input_in_range w :
  Forall well_formed melodies ->
  catalog_length melodies <= CInt.INT32_MAX ->
  in_range melodies w ->
  exists w', handle_input melodies w = Some w' /\ in_range melodies w'.
Proof.
  intros Hall Hlen (selected & Hsel & Hnote & Hplay).
  assert (Hidx : 0 <= index (buttons w) < catalog_length melodies)
    by (by apply get_Some_bounds in Hsel).
  destruct (next_index_in_catalog melodies w Hidx Hlen) as [Hnext [next Hnextsel]].
  pose proof (selected_is_well_formed _ _ Hall Hsel) as [Hm _].
  pose proof (selected_is_well_formed _ _ Hall Hnextsel) as [Hm' _].
  unfold handle_input.
  destruct (a_pressed (buttons w)).
  - destruct (Z.eqb_spec (catalog_length melodies) 0); [lia|].
    rewrite Hnext. project. rewrite Hnextsel. simpl. project.
    destruct (b_pressed (buttons w)); eexists; (split; [reflexivity|]);
      exists next; project; (split; [exact Hnextsel|]); split; try done; lia.
  - simpl. destruct (b_pressed (buttons w)); eexists; (split; [reflexivity|]);
      exists selected; project; (split; [exact Hsel|]); split; try done; lia.
Qed.

Lemma update_sound_in_range js w :
  Forall well_formed melodies ->
  in_range melodies w ->
  exists w', update_sound melodies js w = Some w' /\ in_range melodies w'.
Proof.
  intros Hall (selected & Hsel & Hnote & Hplay).
  pose proof (selected_is_well_formed _ _ Hall Hsel) as [Hm Hd].
  destruct (is_playing (player w)) eqn:Hp.
  - destruct (PicoTime.time_reached (timer w) (next_note_time (player w))) eqn:Ht.
    + destruct (Z.leb_spec (length selected) (current_note (player w)))
        as [Hend|Hin].
      * eexists. split; [by eapply update_sound_finished|].
        exists selected. by project.
      * destruct (get_in_bounds (melody selected) (current_note (player w)))
          as [original Horiginal]; [lia|].
        destruct (get_in_bounds (durations selected) (current_note (player w)))
          as [duration Hduration]; [lia|].
        destruct (update_sound_note melodies js w selected original duration)
          as (w' & Hrun & Hb & Hp' & Hn' & _); [done..|].
        exists w'. split; [exact Hrun|]. exists selected.
        rewrite Hb, Hn'. split; [exact Hsel|]. split; lia.
    + eexists. split; [by apply update_sound_waiting|].
      exists selected. project. rewrite Hp. auto.
  - eexists. split; [by apply update_sound_paused|].
    exists selected. project. rewrite Hp. auto.
Qed.

(** X12.  With a catalog whose melodies have tables of their stated
    length, the loop keeps its indices in range: started from a state
    that is in range, as the state at boot is, any number of passes, with
    whatever presses, samples and timing, runs without an access outside
    the catalog or a note table, and ends in a state that is in range. *)
Theorem loop_stays_in_range inputs fw :
  Forall well_formed melodies ->
  catalog_length melodies <= CInt.INT32_MAX ->
  in_range melodies (fw_world fw) ->
  (melodies <> [] -> in_range melodies boot) /\
  exists fw', loop melodies inputs fw = Some fw' /\ in_range melodies (fw_world fw').
Proof.
  intros Hall Hlen Hstart. split.
  - intros Hne. destruct melodies as [|first rest] eqn:Hm; [done|].
    exists first. split; [reflexivity|]. split; [done|discriminate].
  - revert fw Hstart. induction inputs as [|i inputs IH]; intros fw Hstart.
    + by exists fw.
    + assert (Hpressed : in_range melodies
                (elapse (spent_us i)
                   (foldl (fun w f => run_callback f w) (fw_world fw) (pressed i)))).
      { generalize (fw_world fw) Hstart. induction (pressed i) as [|f fs IHf].
        - intros w Hw. exact Hw.
        - intros w Hw. cbn [foldl]. apply IHf. by destruct f. }
      destruct (handle_input_in_range _ Hall Hlen Hpressed) as (w1 & Hin & Hw1).
      destruct (update_sound_in_range (sound_sample i) w1 Hall Hw1)
        as (w2 & Hsound & Hw2).
      destruct (IH {| fw_world := sleep_ms 10 w2;
                      fw_status := show_status (status_sample i) w2 (fw_status fw) |})
        as (fw' & Hrest & Hfw'); [exact Hw2|].
      exists fw'. split; [|exact Hfw'].
      cbn [loop]. unfold loop_pass. rewrite Hin. simpl. rewrite Hsound. simpl.
      exact Hrest.
Qed.

(** *** Pacing *)

(** X13.  A note is followed by as long a gap: once [update_sound] has
    sounded a note or rest of [duration] ms, a pass that comes less than
    [duration] ms after that call returned sends nothing and leaves the
    note index alone, so each note takes at least twice its duration. *)
Theorem note_is_followed_by_equal_gap js w selected original duration step :
  is_playing (player w) = true ->
  PicoTime.time_reached (timer w) (next_note_time (player w)) = true ->
  CArray.get melodies (index (buttons w)) = Some selected ->
  current_note (player w) < length selected ->
  CArray.get (melody selected) (current_note (player w)) = Some original ->
  CArray.get (durations selected) (current_note (player w)) = Some duration ->
  0 <= duration <= CInt.UINT32_MAX ->
  0 <= timer w ->
  timer w + 2 * (duration * 1000) <= CInt.INT64_MAX ->
  0 <= fst step < duration * 1000 ->
  exists w1 w2,
    update_sound melodies js w = Some w1 /\
    timer w1 = timer w + duration * 1000 /\
    poll melodies step w1 = Some w2 /\
    calls w2 = calls w1 /\
    current_note (player w2) = current_note (player w1) /\
    is_playing (player w2) = true.
Proof.
  intros Hp Ht Hsel Hin Hnote Hdur Hd Htimer Hfit Hstep.
  destruct (update_sound_note melodies js w selected original duration)
    as (w1 & Hrun & _ & Hp1 & _ & _ & _ & _ & Htimer1 & Hnext); [done..|].
  rewrite (to_uint32_fits duration) in Htimer1, Hnext by done.
  rewrite to_uint64_fits in Htimer1 by lia.
  rewrite Htimer1, delayed_by_ms_fits in Hnext by lia.
  exists w1, (set_freq_mult (bend (snd step)) (elapse (fst step) w1)).
  split; [exact Hrun|]. split; [exact Htimer1|].
  split; [|by project].
  unfold poll. apply update_sound_waiting; [exact Hp1|]. project.
  rewrite Hnext, Htimer1, to_uint64_fits by lia.
  unfold PicoTime.time_reached.
  by destruct (Z.leb_spec (timer w + duration * 1000 + duration * 1000)
                 (timer w + duration * 1000 + fst step)); [lia|].
Qed.

(** X14.  The status line is printed at most every 100 ms: a call of
    [show_status] that is due prints the joystick sample and the
    displayed frequency, and no call made while the timer is less than
    100 ms further on prints again. *)
Theorem status_line_is_rate_limited js w s :
  0 <= timer w ->
  timer w + UPDATE_MS * 1000 <= CInt.INT64_MAX ->
  last s <= timer w ->
  shown (show_status js w s) =
    shown s ++ [(x js, y js, current_freq (player w))] /\
  forall js' w',
    timer w' < timer w + UPDATE_MS * 1000 ->
    show_status js' w' (show_status js w s) = show_status js w s.
Proof.
  intros Htimer Hfit Hdue.
  assert (Hprinted : show_status js w s =
            {| last := timer w + UPDATE_MS * 1000;
               shown := shown s ++ [(x js, y js, current_freq (player w))] |}).
  { unfold show_status, PicoTime.time_reached.
    destruct (Z.leb_spec (last s) (timer w)); [|lia].
    unfold make_timeout_time_ms.
    by rewrite delayed_by_ms_fits by (unfold UPDATE_MS in *; lia). }
  rewrite Hprinted. split; [reflexivity|].
  intros js' w' Hsoon. unfold show_status, PicoTime.time_reached. cbn [last].
  by destruct (Z.leb_spec (timer w + UPDATE_MS * 1000) (timer w')); [lia|].
Qed.

(** *** Any melody plays in order *)

Section InOrder.

Variable i : Z.
Variable selected : Melody.
Hypothesis Hselected : CArray.get melodies i = Some selected.
Hypothesis Hwf : well_formed selected.

Lemma poll_plays_in_order step w :
  index (buttons w) = i ->
  played_in_order selected w ->
  exists w',
    poll melodies step w = Some w' /\
    index (buttons w') = i /\
    played_in_order selected w'.
Proof.
  intros Hidx (Hnote & Hsounded & Hpaused). unfold poll.
  destruct Hwf as [Hm Hd].
  set (w1 := elapse (fst step) w).
  assert (Hsel1 : CArray.get melodies (index (buttons w1)) = Some selected)
    by (subst w1; project; by rewrite Hidx).
  destruct (is_playing (player w)) eqn:Hp.
  - destruct (PicoTime.time_reached (timer w1) (next_note_time (player w1)))
      eqn:Ht.
    + destruct (Z.ltb_spec (current_note (player w)) (length selected))
        as [Hin|Hout].
      * destruct (get_in_bounds (melody selected) (current_note (player w)))
          as [original Horiginal]; [lia|].
        destruct (get_in_bounds (durations selected) (current_note (player w)))
          as [duration Hduration]; [lia|].
        destruct (update_sound_note melodies (snd step) w1 selected original duration)
          as (w' & Hrun & Hb & Hp' & Hn' & _ & _ & Hcalls & _); [done..|].
        subst w1. project.
        exists w'. split; [exact Hrun|]. split; [by rewrite Hb|].
        split; [lia|]. split; [|rewrite Hp'; discriminate].
        rewrite Hcalls, sounded_app, Hn', Z2Nat.inj_add, Nat.add_1_r by lia.
        rewrite (take_S_r _ _ (original, duration)).
        -- apply Forall2_app; [exact Hsounded|].
           destruct (0 <? original) eqn:Hpos; cbn [sounded List.filter];
             (apply List.Forall2_cons; [|apply List.Forall2_nil]);
             unfold plays; cbn [fst snd]; rewrite Hpos; eauto.
        -- unfold CArray.get in Horiginal, Hduration.
           destruct (0 <=? current_note (player w)); [|discriminate].
           rewrite lookup_zip_with, Horiginal. simpl. by rewrite Hduration.
      * eexists. split.
        { eapply update_sound_finished; [exact Hp|exact Ht|exact Hsel1|].
          subst w1; project; lia. }
        subst w1. unfold played_in_order. project.
        split; [done|]. split; [lia|]. split; [done|lia].
    + eexists. split; [by apply update_sound_waiting|].
      subst w1. unfold played_in_order. project.
      split; [done|]. split; [lia|]. split; [done|]. rewrite Hp. discriminate.
  - eexists. split; [by apply update_sound_paused|].
    subst w1. unfold played_in_order. project.
    split; [done|]. split; [lia|]. split; [|rewrite Hp; exact Hpaused].
    rewrite sounded_app. simpl. by rewrite app_nil_r.
Qed.

(** X15.  Any melody plays in order and no further than its end.  With
    a melody whose tables have its stated length selected and the player
    started at note 0, then however the passes are spaced and whatever
    the joystick reads, the tones and rests sent are those of the first
    [current_note] entries, in order: for an entry with a positive
    frequency a tone of its duration, otherwise a wait of its duration.
    The note index never exceeds the length and a paused player is at
    the end. *)
Theorem melody_plays_in_order schedule w0 :
  index (buttons w0) = i ->
  is_playing (player w0) = true ->
  current_note (player w0) = 0 ->
  sounded (calls w0) = [] ->
  exists w',
    run melodies schedule w0 = Some w' /\
    index (buttons w') = i /\
    played_in_order selected w'.
Proof.
  intros Hidx Hp Hnote Hcalls.
  assert (Hstart : played_in_order selected w0).
  { unfold played_in_order. rewrite Hnote, Hcalls, Hp.
    destruct Hwf as [Hm _]. split; [lia|]. split; [constructor|discriminate]. }
  clear Hp Hnote Hcalls. revert w0 Hidx Hstart.
  induction schedule as [|step schedule IH]; intros w0 Hidx Hstart.
  - by exists w0.
  - destruct (poll_plays_in_order step w0 Hidx Hstart) as (w1 & Hpoll & Hidx1 & Hw1).
    destruct (IH w1 Hidx1 Hw1) as (w' & Hrun & Hw').
    exists w'. split; [|exact Hw']. cbn [run]. rewrite Hpoll. exact Hrun.
Qed.

End InOrder.

End PlayerLaws.

(** ** Checking ranges *)

Section ExhaustiveFacts.

Import Exhaustive.

Lemma all_from_sound count from p :
  all_from count from p = true ->
  forall z, from <= z < from + Z.of_nat count -> p z = true.
Proof.
  revert from. induction count as [|count IH]; intros from Hall z Hz; [lia|].
  cbn [all_from] in Hall. apply andb_true_iff in Hall as [Hhere Hrest].
  destruct (Z.eq_dec z from) as [->|Hne]; [exact Hhere|].
  apply (IH (from + 1) Hrest). lia.
Qed.

End ExhaustiveFacts.

(** ** The joystick *)

Section JoystickLaws.

Import CInt JoystickPi Genius.

(** The quotient of the rescale lies between 0 and the output span. *)
Lemma rescale_quotient_between v D d :
  0 <= v <= D -> 0 < D ->
  Z.min 0 d <= Z.quot (v * d) D <= Z.max 0 d.
Proof.
  intros Hv HD. destruct (Z.le_gt_cases 0 d) as [Hd|Hd].
  - rewrite Z.min_l, Z.max_r by lia. split.
    + apply Z.quot_pos; nia.
    + apply Z.quot_le_upper_bound; nia.
  - rewrite Z.min_r, Z.max_l by lia.
    replace (v * d) with (- (v * - d)) by lia.
    rewrite Z.quot_opp_l by lia.
    assert (0 <= Z.quot (v * - d) D <= - d); [|lia]. split.
    + apply Z.quot_pos; nia.
    + apply Z.quot_le_upper_bound; nia.
Qed.

(** X16.  Inside the input range the mapping stays inside the output
    range: for [uint16_t] input bounds with a span of at most 32767
    (every 12-bit ADC range), [in_min <= value <= in_max] and any
    [int16_t] output bounds, the
    function has a result, the result is [out_min + (value - in_min) *
    (out_max - out_min) / (in_max - in_min)] exactly, and it lies between
    [out_min] and [out_max], whichever is larger. *)
Theorem map_value_stays_in_output_range value in_min in_max out_min out_max :
  0 <= in_min -> in_max <= 65535 ->
  in_min < in_max ->
  in_max - in_min <= 32767 ->
  in_min <= value <= in_max ->
  is_int16 out_min -> is_int16 out_max ->
  joystickPi_map_value value in_min in_max out_min out_max =
    Some (linear_rescale value in_min in_max out_min out_max) /\
  Z.min out_min out_max
    <= linear_rescale value in_min in_max out_min out_max
    <= Z.max out_min out_max.
Proof.
  intros Hlow Hhigh Hlt Hspan Hvalue Hmin Hmax.
  pose proof (rescale_quotient_between (value - in_min) (in_max - in_min)
                (out_max - out_min) ltac:(lia) ltac:(lia)) as Hq.
  assert (Hrange : Z.min out_min out_max
                   <= linear_rescale value in_min in_max out_min out_max
                   <= Z.max out_min out_max)
    by (unfold linear_rescale; lia).
  split; [|exact Hrange].
  rewrite map_value_unfold by lia. unfold is_int16 in *.
  rewrite to_int32_fits
    by (unfold is_int32, INT32_MIN, INT32_MAX; nia).
  rewrite Z.add_comm.
  fold (linear_rescale value in_min in_max out_min out_max).
  rewrite to_int16_fits; [reflexivity|]. unfold is_int16. lia.
Qed.

(** X17.  The mapping keeps order: under the same conditions, a larger
    input gives a result that is not smaller when [out_min <= out_max],
    and not larger when the output range is reversed. *)
Theorem map_value_is_monotone value value' in_min in_max out_min out_max :
  0 <= in_min -> in_max <= 65535 ->
  in_min < in_max ->
  in_max - in_min <= 32767 ->
  in_min <= value <= value' -> value' <= in_max ->
  is_int16 out_min -> is_int16 out_max ->
  exists r r',
    joystickPi_map_value value in_min in_max out_min out_max = Some r /\
    joystickPi_map_value value' in_min in_max out_min out_max = Some r' /\
    (out_min <= out_max -> r <= r') /\
    (out_max <= out_min -> r' <= r).
Proof.
  intros Hlow Hhigh Hlt Hspan Hvalue Hvalue' Hmin Hmax.
  assert (Hresult : forall v, in_min <= v <= in_max ->
            joystickPi_map_value v in_min in_max out_min out_max =
              Some (linear_rescale v in_min in_max out_min out_max)).
  { intros v Hv. rewrite map_value_unfold by lia. unfold is_int16 in *.
    pose proof (rescale_quotient_between (v - in_min) (in_max - in_min)
                  (out_max - out_min) ltac:(lia) ltac:(lia)) as Hq.
    rewrite to_int32_fits by (unfold is_int32, INT32_MIN, INT32_MAX; nia).
    rewrite Z.add_comm. fold (linear_rescale v in_min in_max out_min out_max).
    rewrite to_int16_fits; [reflexivity|].
    unfold is_int16, linear_rescale. lia. }
  exists (linear_rescale value in_min in_max out_min out_max),
         (linear_rescale value' in_min in_max out_min out_max).
  split; [apply Hresult; lia|]. split; [apply Hresult; lia|].
  unfold linear_rescale. split; intros Horder.
  - apply Z.add_le_mono_l, Z.quot_le_mono; nia.
  - apply Z.add_le_mono_l.
    replace ((value' - in_min) * (out_max - out_min))
      with (- ((value' - in_min) * (out_min - out_max))) by lia.
    replace ((value - in_min) * (out_max - out_min))
      with (- ((value - in_min) * (out_min - out_max))) by lia.
    rewrite !Z.quot_opp_l by lia.
    apply (proj1 (Z.opp_le_mono _ _)), Z.quot_le_mono; nia.
Qed.

(** The multiplier depends on the X sample alone. *)
Lemma bend_depends_on_x js :
  bend js = bend {| x := x js; y := 0; button := false |}.
Proof. reflexivity. Qed.

(** Every sample from 0 to 4095: the multiplier is finite, between 1/2
    and 3/2, and not above the next sample's. *)
Lemma multiplier_checked :
  Exhaustive.all_from 4096 0
    (fun z =>
       let here := Float32.to_Q (bend {| x := z; y := 0; button := false |}) in
       let next :=
         Float32.to_Q (bend {| x := z + 1; y := 0; button := false |}) in
       Float32.is_finite (bend {| x := z; y := 0; button := false |})
       && Qle_bool (1 # 2) here && Qle_bool here (3 # 2)
       && Qle_bool here next) = true.
Proof. vm_compute. reflexivity. Qed.

(** X18.  The pitch bend covers 0.5 to 1.5: for every 12-bit sample the
    multiplier [update_sound] computes is a finite number between 1/2 and
    3/2, it is exactly 1/2 at 0 and 3/2 at 4095, and it does not
    decrease when the sample grows. *)
Theorem multiplier_covers_half_to_one_and_a_half js :
  0 <= x js <= 4095 ->
  Float32.is_finite (bend js) = true /\
  (1 # 2 <= Float32.to_Q (bend js) <= 3 # 2)%Q /\
  (x js = 0 -> (Float32.to_Q (bend js) == 1 # 2)%Q) /\
  (x js = 4095 -> (Float32.to_Q (bend js) == 3 # 2)%Q) /\
  (forall js', x js <= x js' <= 4095 ->
     (Float32.to_Q (bend js) <= Float32.to_Q (bend js'))%Q).
Proof.
  intros Hx.
  pose proof (all_from_sound _ _ _ multiplier_checked) as Hall.
  assert (Hone : forall z, 0 <= z <= 4095 ->
            Float32.is_finite (bend {| x := z; y := 0; button := false |}) = true /\
            (1 # 2 <= Float32.to_Q (bend {| x := z; y := 0; button := false |}))%Q /\
            (Float32.to_Q (bend {| x := z; y := 0; button := false |}) <= 3 # 2)%Q /\
            (Float32.to_Q (bend {| x := z; y := 0; button := false |})
             <= Float32.to_Q (bend {| x := z + 1; y := 0; button := false |}))%Q).
  { intros z Hz. specialize (Hall z ltac:(lia)). cbv zeta in Hall.
    rewrite !andb_true_iff, !Qle_bool_iff in Hall. tauto. }
  rewrite (bend_depends_on_x js).
  destruct (Hone (x js) Hx) as (Hfin & Hlow & Hhigh & _).
  split; [exact Hfin|]. split; [by split|].
  split; [intros ->; reflexivity|]. split; [intros ->; reflexivity|].
  intros js' Hx'. rewrite (bend_depends_on_x js').
  assert (Hsteps : forall n z, 0 <= z -> z + Z.of_nat n <= 4095 ->
            (Float32.to_Q (bend {| x := z; y := 0; button := false |})
             <= Float32.to_Q
                  (bend {| x := z + Z.of_nat n; y := 0; button := false |}))%Q).
  { induction n as [|n IH]; intros z Hz Hup.
    - rewrite Z.add_0_r. apply Qle_refl.
    - eapply Qle_trans; [apply IH; lia|].
      replace (z + Z.of_nat (S n)) with (z + Z.of_nat n + 1) by lia.
      apply Hone. lia. }
  replace (x js') with (x js + Z.of_nat (Z.to_nat (x js' - x js))) by lia.
  apply Hsteps; lia.
Qed.

End JoystickLaws.

(** ** The blocking buzzer routines *)

Section BuzzerLaws.

Import CInt BuzzerPi.

Lemma calculate_wrap_range clock_freq target_frequency clkdiv :
  0 <= calculate_wrap clock_freq target_frequency clkdiv <= WRAP_MAX.
Proof.
  rewrite calculate_wrap_min.
  pose proof (to_uint32_range (wrap_float clock_freq target_frequency clkdiv)).
  unfold WRAP_MAX. lia.
Qed.

Lemma blocking_ms_app cs cs' :
  blocking_ms (cs ++ cs') = blocking_ms cs + blocking_ms cs'.
Proof.
  unfold blocking_ms. induction cs as [|c cs IH]; [reflexivity|].
  simpl. rewrite IH. destruct c; lia.
Qed.

Lemma final_level_app pin cs cs' :
  final_level pin (cs ++ cs') =
    match final_level pin cs' with
    | Some level => Some level
    | None => final_level pin cs
    end.
Proof.
  induction cs as [|c cs IH]; simpl.
  - by destruct (final_level pin cs').
  - rewrite IH. by destruct (final_level pin cs').
Qed.

Lemma left_silent_app pin cs cs' :
  left_silent pin cs -> left_silent pin cs' -> left_silent pin (cs ++ cs').
Proof.
  unfold left_silent. rewrite final_level_app.
  intros Hcs [-> | ->]; [exact Hcs|by right].
Qed.

Lemma programmed_wraps_app cs cs' :
  programmed_wraps (cs ++ cs') = programmed_wraps cs ++ programmed_wraps cs'.
Proof. apply flat_map_app. Qed.

Lemma play_tone_clkdiv_left_silent clock_freq pin freq duration_ms clkdiv p :
  left_silent p (play_tone_clkdiv clock_freq pin freq duration_ms clkdiv).
Proof.
  unfold left_silent. simpl. destruct (pin =? p); [by right|].
  by left.
Qed.

Lemma play_tone_left_silent clock_freq pin freq duration_ms p :
  left_silent p (play_tone clock_freq pin freq duration_ms).
Proof.
  unfold left_silent. simpl. destruct (pin =? p); [by right|].
  by left.
Qed.

(** One iteration of the loop reads [melody[i]] and [durations[i]]. *)
Lemma play_melody_note_defined clock_freq pin melody durations clkdiv i :
  is_Some (play_melody_note clock_freq pin melody durations clkdiv i) <->
  0 <= i < Z.of_nat (base.length melody) /\
  i < Z.of_nat (base.length durations).
Proof.
  unfold play_melody_note. split.
  - intros [cs Hcs].
    destruct (CArray.get melody i) as [note|] eqn:Hnote; [|discriminate].
    apply get_Some_bounds in Hnote. simpl in Hcs.
    destruct (CArray.get durations i) as [duration|] eqn:Hduration.
    + apply get_Some_bounds in Hduration. lia.
    + destruct (negb (note =? 0)); discriminate.
  - intros [Hmelody Hdurations].
    destruct (get_in_bounds melody i Hmelody) as [note ->].
    destruct (get_in_bounds durations i ltac:(lia)) as [duration ->].
    simpl. by destruct (negb (note =? 0)).
Qed.

Lemma play_melody_from_defined clock_freq pin melody durations clkdiv
    remaining i :
  0 <= i ->
  is_Some (play_melody_from clock_freq pin melody durations clkdiv remaining i)
  <->
  (remaining = O \/
   (i + Z.of_nat remaining <= Z.of_nat (base.length melody) /\
    i + Z.of_nat remaining <= Z.of_nat (base.length durations))).
Proof.
  revert i. induction remaining as [|remaining IH]; intros i Hi.
  - simpl. split; [by left|by eexists].
  - cbn [play_melody_from].
    pose proof (play_melody_note_defined clock_freq pin melody durations
                  clkdiv i) as Hnote.
    specialize (IH (i + 1) ltac:(lia)). split.
    + intros [cs Hcs]. right.
      destruct (play_melody_note clock_freq pin melody durations clkdiv i)
        as [now|]; [|discriminate].
      destruct (proj1 Hnote ltac:(by eexists)) as [Hmelody Hdurations].
      simpl in Hcs.
      destruct (play_melody_from clock_freq pin melody durations clkdiv
                  remaining (i + 1)) as [later|]; [|discriminate].
      destruct (proj1 IH ltac:(by eexists)) as [-> | Hrest]; lia.
    + intros [Hzero | [Hmelody Hdurations]]; [discriminate|].
      destruct (proj2 Hnote ltac:(lia)) as [now ->].
      assert (Hlater : is_Some (play_melody_from clock_freq pin melody durations
                                  clkdiv remaining (i + 1))).
      { apply IH. destruct remaining; [by left|right; lia]. }
      destruct Hlater as [later ->]. by eexists.
Qed.

(** X19.  [play_melody] reads the entries 0 to [length - 1] of both
    arrays and no others: it stays inside the arrays exactly when each of
    them has at least [length] entries, and it does nothing at all for a
    [length] of zero or less. *)
Theorem play_melody_reads_length_entries clock_freq pin melody durations
    clkdiv length :
  (is_Some (play_melody clock_freq pin melody durations clkdiv length) <->
   length <= Z.of_nat (base.length melody) /\
   length <= Z.of_nat (base.length durations)) /\
  (length <= 0 ->
   play_melody clock_freq pin melody durations clkdiv length = Some []).
Proof.
  unfold play_melody. split.
  - rewrite play_melody_from_defined by lia. split.
    + intros [Hzero | Hfit]; lia.
    + intros Hfit. destruct (Z.to_nat length) eqn:Hlength; [by left|right; lia].
  - intros Hlength. by replace (Z.to_nat length) with O by lia.
Qed.

Lemma play_melody_note_effect clock_freq pin melody durations clkdiv i
    note duration :
  CArray.get melody i = Some note ->
  CArray.get durations i = Some duration ->
  exists cs,
    play_melody_note clock_freq pin melody durations clkdiv i = Some cs /\
    blocking_ms cs = to_uint32 duration /\
    Forall (fun wrap => 0 <= wrap <= WRAP_MAX) (programmed_wraps cs) /\
    base.length (programmed_wraps cs) = (if (note =? 0)%Z then 0 else 1)%nat /\
    forall p, left_silent p cs.
Proof.
  intros Hnote Hduration. unfold play_melody_note.
  rewrite Hnote, Hduration. simpl. destruct (note =? 0); simpl.
  - eexists. split; [reflexivity|]. split; [simpl; lia|].
    split; [constructor|]. split; [reflexivity|]. intros p. by left.
  - eexists. split; [reflexivity|]. split; [simpl; lia|].
    split; [repeat constructor; apply calculate_wrap_range|].
    split; [reflexivity|]. apply play_tone_clkdiv_left_silent.
Qed.

Lemma play_melody_from_effect clock_freq pin melody durations clkdiv
    remaining i :
  0 <= i ->
  i + Z.of_nat remaining <= Z.of_nat (base.length melody) ->
  i + Z.of_nat remaining <= Z.of_nat (base.length durations) ->
  exists cs,
    play_melody_from clock_freq pin melody durations clkdiv remaining i
      = Some cs /\
    blocking_ms cs =
      foldr Z.add 0
        (to_uint32 <$> take remaining (drop (Z.to_nat i) durations)) /\
    Forall (fun wrap => 0 <= wrap <= WRAP_MAX) (programmed_wraps cs) /\
    base.length (programmed_wraps cs) =
      base.length
        (List.filter (fun note => negb (note =? 0))
           (take remaining (drop (Z.to_nat i) melody))) /\
    forall p, left_silent p cs.
Proof.
  revert i. induction remaining as [|remaining IH]; intros i Hi Hmelody Hdurations.
  - exists []. simpl. split; [reflexivity|]. split; [reflexivity|].
    split; [constructor|]. split; [reflexivity|]. intros p. by left.
  - destruct (get_in_bounds melody i ltac:(lia)) as [note Hnote].
    destruct (get_in_bounds durations i ltac:(lia)) as [duration Hduration].
    destruct (play_melody_note_effect clock_freq pin melody durations clkdiv i
                note duration Hnote Hduration)
      as (now & Hnow & Hnow_ms & Hnow_wraps & Hnow_count & Hnow_silent).
    destruct (IH (i + 1) ltac:(lia) ltac:(lia) ltac:(lia))
      as (later & Hlater & Hlater_ms & Hlater_wraps & Hlater_count
          & Hlater_silent).
    exists (now ++ later). cbn [play_melody_from]. rewrite Hnow, Hlater.
    split; [reflexivity|].
    assert (Hnote' : melody !! Z.to_nat i = Some note).
    { unfold CArray.get in Hnote.
      by destruct (0 <=? i). }
    assert (Hduration' : durations !! Z.to_nat i = Some duration).
    { unfold CArray.get in Hduration.
      by destruct (0 <=? i). }
    rewrite (drop_S _ _ _ Hnote'), (drop_S _ _ _ Hduration').
    replace (S (Z.to_nat i)) with (Z.to_nat (i + 1)) by lia.
    split; [|split; [|split]].
    + rewrite blocking_ms_app, Hnow_ms, Hlater_ms. reflexivity.
    + rewrite programmed_wraps_app. by apply Forall_app.
    + rewrite programmed_wraps_app, length_app, Hnow_count, Hlater_count.
      cbn [take List.filter]. by destruct (note =? 0).
    + intros p. by apply left_silent_app.
Qed.

(** X20.  A melody whose arrays hold [length] entries is played to the
    end: the call blocks for the sum of the first [length] durations
    (each converted to [uint32_t], rests included), programs one wrap
    value per non-zero note, every one within the 16-bit register, and
    leaves no pin at a non-zero level. *)
Theorem play_melody_blocks_for_its_durations clock_freq pin melody durations
    clkdiv length :
  length <= Z.of_nat (base.length melody) ->
  length <= Z.of_nat (base.length durations) ->
  exists cs,
    play_melody clock_freq pin melody durations clkdiv length = Some cs /\
    blocking_ms cs =
      foldr Z.add 0 (to_uint32 <$> take (Z.to_nat length) durations) /\
    Forall (fun wrap => 0 <= wrap <= WRAP_MAX) (programmed_wraps cs) /\
    base.length (programmed_wraps cs) =
      base.length
        (List.filter (fun note => negb (note =? 0))
           (take (Z.to_nat length) melody)) /\
    forall p, left_silent p cs.
Proof.
  intros Hmelody Hdurations. unfold play_melody.
  apply (play_melody_from_effect clock_freq pin melody durations clkdiv
           (Z.to_nat length) 0); lia.
Qed.

Lemma beep_from_effect clock_freq pin freq duration remaining :
  blocking_ms (beep_from clock_freq pin freq duration remaining) =
    Z.of_nat remaining * (to_uint32 duration + 500) /\
  Forall (fun wrap => 0 <= wrap <= WRAP_MAX)
    (programmed_wraps (beep_from clock_freq pin freq duration remaining)) /\
  base.length
    (programmed_wraps (beep_from clock_freq pin freq duration remaining))
    = remaining /\
  forall p, left_silent p (beep_from clock_freq pin freq duration remaining).
Proof.
  induction remaining as [|remaining (IHms & IHwraps & IHcount & IHsilent)].
  - simpl. split; [reflexivity|]. split; [constructor|].
    split; [reflexivity|]. intros p. by left.
  - cbn [beep_from]. split; [|split; [|split]].
    + rewrite blocking_ms_app. change (Sleep_ms 500 :: ?l) with ([Sleep_ms 500] ++ l).
      rewrite blocking_ms_app, IHms. simpl. lia.
    + rewrite programmed_wraps_app. apply Forall_app. split.
      * repeat constructor; apply calculate_wrap_range.
      * exact IHwraps.
    + rewrite programmed_wraps_app, length_app.
      change (programmed_wraps (Sleep_ms 500 :: ?l)) with (programmed_wraps l).
      rewrite IHcount. reflexivity.
    + intros p. apply left_silent_app; [apply play_tone_left_silent|].
      specialize (IHsilent p). unfold left_silent in *. simpl.
      destruct IHsilent as [-> | ->]; [by left|by right].
Qed.

(** X21.  [beep] sounds [repetition] tones, each followed by a 500 ms
    gap, the last one included: it blocks for [repetition * (duration +
    500)] ms, keeps every wrap value within the 16-bit register, leaves
    no pin at a non-zero level, and issues nothing for a [repetition] of
    zero or less. *)
Theorem beep_blocks_for_tones_and_gaps clock_freq pin freq duration repetition :
  blocking_ms (beep clock_freq pin freq duration repetition) =
    Z.max 0 repetition * (to_uint32 duration + 500) /\
  Forall (fun wrap => 0 <= wrap <= WRAP_MAX)
    (programmed_wraps (beep clock_freq pin freq duration repetition)) /\
  Z.of_nat
    (base.length
       (programmed_wraps (beep clock_freq pin freq duration repetition)))
    = Z.max 0 repetition /\
  (forall p, left_silent p (beep clock_freq pin freq duration repetition)) /\
  (repetition <= 0 -> beep clock_freq pin freq duration repetition = []).
Proof.
  unfold beep.
  destruct (beep_from_effect clock_freq pin freq duration (Z.to_nat repetition))
    as (Hms & Hwraps & Hcount & Hsilent).
  split; [rewrite Hms; f_equal; lia|]. split; [exact Hwraps|].
  split; [rewrite Hcount; lia|]. split; [exact Hsilent|].
  intros Hrepetition. by replace (Z.to_nat repetition) with O by lia.
Qed.

Lemma wrap_checked :
  Exhaustive.all_from (Z.to_nat 20000) 1
    (fun freq =>
       calculate_wrap 125000000 freq CLK_DIV_DEFAULT
       =? Z.min WRAP_MAX (1000000 / freq - 1)) = true.
Proof. vm_compute. reflexivity. Qed.

(** X22.  At the 125 MHz system clock and the default divider the
    single-precision computation is exact over the audible range: for
    every frequency from 1 Hz to 20 kHz the wrap value is
    [1000000 / freq - 1] cut at 65535, so that from 16 Hz on the period
    [wrap + 1] is the largest whose tone is not below the one asked
    for. *)
Theorem wrap_is_exact_in_the_audible_range freq :
  1 <= freq <= 20000 ->
  calculate_wrap 125000000 freq CLK_DIV_DEFAULT
    = Z.min WRAP_MAX (1000000 / freq - 1) /\
  (16 <= freq ->
   let wrap := calculate_wrap 125000000 freq CLK_DIV_DEFAULT in
   (wrap + 1) * freq <= 1000000 < (wrap + 2) * freq).
Proof.
  intros Hfreq.
  pose proof (all_from_sound _ _ _ wrap_checked freq ltac:(lia)) as Hwrap.
  apply Z.eqb_eq in Hwrap. split; [exact Hwrap|].
  intros Haudible. cbv zeta. rewrite Hwrap. unfold WRAP_MAX.
  assert (Hquot : 1000000 / freq <= 62500).
  { apply Z.div_le_upper_bound; lia. }
  rewrite Z.min_r by lia.
  pose proof (Z.div_mod 1000000 freq ltac:(lia)) as Hdiv.
  pose proof (Z.mod_pos_bound 1000000 freq ltac:(lia)) as Hmod.
  generalize dependent (1000000 / freq).
  generalize dependent (1000000 mod freq). intros. nia.
Qed.

End BuzzerLaws.

(** ** The further properties at concrete inputs *)

Section FurtherInstances.

Import Genius.

Lemma register_last_wins_witness :
  0 <= 5 < GpioIrqManager.MAX_GPIO_PINS /\
  exists st2,
    GpioIrqManager.register_gpio_callback 5 (Some btn_b_callback) 4
      GpioIrqManager.boot =
      Some (st2, [GpioIrqManager.Gpio_set_irq_enabled 5 4 true]) /\
    CArray.get (GpioIrqManager.callbacks st2) 5 = Some (Some btn_b_callback).
Proof.
  assert (Hpin : 0 <= 5 < GpioIrqManager.MAX_GPIO_PINS) by (vm_compute; by split).
  split; [exact Hpin|].
  destruct (register_last_wins GpioIrqManager.boot 5 (Some btn_a_callback)
              (Some btn_b_callback) 4 4 boot_well_formed Hpin)
    as (st1 & st2 & _ & _ & Halone & Hslot & _).
  exists st2. split; [exact Halone|exact Hslot].
Defined.

Lemma remove_undoes_register_witness :
  0 <= 5 < GpioIrqManager.MAX_GPIO_PINS /\
  exists st1,
    GpioIrqManager.register_gpio_callback 5 (Some btn_a_callback) 4
      GpioIrqManager.boot =
      Some (st1, [GpioIrqManager.Gpio_set_irq_enabled 5 4 true]) /\
    GpioIrqManager.remove_gpio_callback 5 4 st1 =
      Some (GpioIrqManager.boot, [GpioIrqManager.Gpio_set_irq_enabled 5 4 false]).
Proof.
  assert (Hpin : 0 <= 5 < GpioIrqManager.MAX_GPIO_PINS) by (vm_compute; by split).
  split; [exact Hpin|].
  destruct (remove_undoes_register GpioIrqManager.boot 5 (Some btn_a_callback) 4
              boot_well_formed Hpin eq_refl) as (st1 & Hreg & Hrem & _).
  exists st1. split; [exact Hreg|exact Hrem].
Defined.

Lemma layer_stays_in_bounds_witness :
  exists st' out,
    GpioIrqManager.perform_all
      [GpioIrqManager.Init;
       GpioIrqManager.Register 5 (Some btn_a_callback) 4;
       GpioIrqManager.Interrupt 300000 5 4;
       GpioIrqManager.Register 31 (Some btn_b_callback) 4;
       GpioIrqManager.Interrupt 600000 4294967295 4;
       GpioIrqManager.Remove 5 4]
      GpioIrqManager.boot = Some (st', out) /\
    GpioIrqManager.well_formed st'.
Proof.
  apply (layer_stays_in_bounds
           [GpioIrqManager.Init;
            GpioIrqManager.Register 5 (Some btn_a_callback) 4;
            GpioIrqManager.Interrupt 300000 5 4;
            GpioIrqManager.Register 31 (Some btn_b_callback) 4;
            GpioIrqManager.Interrupt 600000 4294967295 4;
            GpioIrqManager.Remove 5 4]
           GpioIrqManager.boot boot_well_formed).
  repeat constructor; vm_compute; discriminate.
Defined.


Lemma invocations_are_rate_limited_witness :
  exists st' count,
    GpioIrqManager.dispatch_all 5 4 [1300000; 1450000; 1600000; 1900000]
      Scenario.button_a_registered =
      Some (st', replicate count (GpioIrqManager.Invoke btn_a_callback)) /\
    Z.of_nat count * (200 * 1000 + 1) <= 2000000 - 1000000.
Proof.
  apply (invocations_are_rate_limited Scenario.button_a_registered 5
           btn_a_callback 1000000 2000000
           [1300000; 1450000; 1600000; 1900000] 4).
  - reflexivity.
  - reflexivity.
  - reflexivity.
  - lia.
  - vm_compute. discriminate.
  - simpl. lia.
  - repeat constructor; vm_compute; discriminate.
Defined.

Lemma attached_button_fires_witness :
  exists st1 st2,
    ButtonPi.ButtonPi_attach_callback
      {| ButtonPi.pin := 5; ButtonPi.last_state := true |}
      (Some btn_a_callback) GpioIrqManager.boot =
      Some (st1, GpioIrqManager.gpio_irq_manager_init ++
                 [PicoSdk.Gpio_set_irq_enabled 5 PicoSdk.GPIO_IRQ_EDGE_FALL true])
    /\
    GpioIrqManager.gpio_irq_handler 300000 5 4 st1 =
      Some (st2, [GpioIrqManager.Invoke btn_a_callback]).
Proof.
  destruct (attached_button_fires GpioIrqManager.boot
              {| ButtonPi.pin := 5; ButtonPi.last_state := true |}
              btn_a_callback boot_well_formed) as [Hvalid _].
  - simpl. lia.
  - destruct Hvalid as (st1 & Hattach & _ & Hfires).
    + reflexivity.
    + destruct (Hfires 0 300000 4) as [st2 Hrun].
      * reflexivity.
      * lia.
      * vm_compute. discriminate.
      * lia.
      * exists st1, st2. split; [exact Hattach|exact Hrun].
Defined.

Lemma init_hardware_wires_buttons_witness :
  exists st calls m,
    init_hardware true true GpioIrqManager.boot = Some (st, calls) /\
    interrupt 300000 6 4 {| machine_tables := st; machine_world := boot |}
      = Some m /\
    machine_world m = set_b_pressed true boot.
Proof.
  destruct (init_hardware_wires_buttons true true boot 300000 6 4)
    as (st & calls & m & Hinit & _ & Hrun & Hworld).
  - lia.
  - vm_compute. split; discriminate.
  - exists st, calls, m. split; [exact Hinit|]. split; [exact Hrun|exact Hworld].
Defined.

Lemma presses_are_consumed_once_witness :
  handle_input Scenario.catalog
    (Scenario.world 2 5 true true true 0 0 (S754_zero false)) =
    Some (emit (Printf_selected "three notes")
            (Scenario.world 0 0 true false false 0 0 (S754_zero false))) /\
  handle_input Scenario.catalog
    (emit (Printf_selected "three notes")
       (Scenario.world 0 0 true false false 0 0 (S754_zero false))) =
    Some (emit (Printf_selected "three notes")
            (Scenario.world 0 0 true false false 0 0 (S754_zero false))).
Proof.
  split; [reflexivity|].
  apply (presses_are_consumed_once Scenario.catalog
           (Scenario.world 2 5 true true true 0 0 (S754_zero false))
           (emit (Printf_selected "three notes")
              (Scenario.world 0 0 true false false 0 0 (S754_zero false)))
           eq_refl).
Defined.

Lemma selection_cycles_witness :
  exists w',
    press_and_handle Scenario.catalog btn_a_callback 3
      (Scenario.world 1 0 false false false 0 0 (S754_zero false)) = Some w' /\
    index (buttons w') = 1.
Proof.
  destruct (selection_cycles Scenario.catalog 3
              (Scenario.world 1 0 false false false 0 0 (S754_zero false)))
    as (w' & Hrun & _ & Hround).
  - vm_compute. split; [discriminate|reflexivity].
  - vm_compute. discriminate.
  - exists w'. split; [exact Hrun|]. apply Hround. reflexivity.
Defined.

Lemma toggle_parity_witness :
  exists w',
    press_and_handle Scenario.catalog btn_b_callback 3
      (Scenario.world 1 2 false false false 0 0 (S754_zero false)) = Some w' /\
    is_playing (player w') = true /\
    current_note (player w') = 0 /\
    index (buttons w') = 1.
Proof.
  destruct (toggle_parity Scenario.catalog 3
              (Scenario.world 1 2 false false false 0 0 (S754_zero false))
              eq_refl)
    as (w' & Hrun & Hplaying & Hnote & Hindex & _).
  exists w'. split; [exact Hrun|]. split; [exact Hplaying|].
  split; [apply Hnote; discriminate|exact Hindex].
Defined.

Lemma input_and_sound_keep_apart_witness :
  sounded
    (calls (emit (Printf_selected "three notes")
              (Scenario.world 0 0 true false false 0 0 (S754_zero false)))) =
    sounded
      (calls (Scenario.world 2 5 true true true 0 0 (S754_zero false))) /\
  timer (emit (Printf_selected "three notes")
           (Scenario.world 0 0 true false false 0 0 (S754_zero false))) = 0.
Proof.
  destruct (input_and_sound_keep_apart Scenario.catalog
              (Scenario.world 2 5 true true true 0 0 (S754_zero false))
              (emit (Printf_selected "three notes")
                 (Scenario.world 0 0 true false false 0 0 (S754_zero false))))
    as [Hinput _].
  destruct (Hinput eq_refl) as (Hsounded & Htimer & _).
  split; [exact Hsounded|exact Htimer].
Defined.

Lemma loop_stays_in_range_witness :
  exists fw',
    loop Scenario.catalog
      [ {| pressed := [btn_b_callback]; spent_us := 150;
           sound_sample := Scenario.stick 2048;
           status_sample := Scenario.stick 2048 |};
        {| pressed := []; spent_us := 200000;
           sound_sample := Scenario.stick 4095;
           status_sample := Scenario.stick 4095 |};
        {| pressed := [btn_a_callback; btn_a_callback]; spent_us := 90;
           sound_sample := Scenario.stick 0;
           status_sample := Scenario.stick 0 |} ]
      {| fw_world := boot; fw_status := status_boot |} = Some fw' /\
    in_range Scenario.catalog (fw_world fw').
Proof.
  apply (loop_stays_in_range Scenario.catalog
           [ {| pressed := [btn_b_callback]; spent_us := 150;
                sound_sample := Scenario.stick 2048;
                status_sample := Scenario.stick 2048 |};
             {| pressed := []; spent_us := 200000;
                sound_sample := Scenario.stick 4095;
                status_sample := Scenario.stick 4095 |};
             {| pressed := [btn_a_callback; btn_a_callback]; spent_us := 90;
                sound_sample := Scenario.stick 0;
                status_sample := Scenario.stick 0 |} ]
           {| fw_world := boot; fw_status := status_boot |}).
  - repeat constructor.
  - vm_compute. discriminate.
  - exists Scenario.three_notes. split; [reflexivity|].
    split; [reflexivity|discriminate].
Defined.

Lemma note_is_followed_by_equal_gap_witness :
  exists w1 w2,
    update_sound Scenario.catalog (Scenario.stick 2048)
      (Scenario.world 0 0 true false false 0 0 (S754_zero false)) = Some w1 /\
    timer w1 = 200000 /\
    poll Scenario.catalog (199999, Scenario.stick 2048) w1 = Some w2 /\
    calls w2 = calls w1 /\
    current_note (player w2) = current_note (player w1).
Proof.
  destruct (note_is_followed_by_equal_gap Scenario.catalog (Scenario.stick 2048)
              (Scenario.world 0 0 true false false 0 0 (S754_zero false))
              Scenario.three_notes 440 200 (199999, Scenario.stick 2048)
              eq_refl eq_refl eq_refl eq_refl eq_refl eq_refl)
    as (w1 & w2 & Hnote & Htimer & Hgap & Hcalls & Hindex & _).
  - vm_compute. split; discriminate.
  - reflexivity.
  - vm_compute. discriminate.
  - simpl. lia.
  - exists w1, w2. split; [exact Hnote|]. split; [exact Htimer|].
    split; [exact Hgap|]. split; [exact Hcalls|exact Hindex].
Defined.

Lemma status_line_is_rate_limited_witness :
  shown (show_status (Scenario.stick 2048)
           (Scenario.world 0 0 false false false 5000 0 (S754_zero false))
           status_boot) = [(2048, 2048, 0)] /\
  show_status (Scenario.stick 0)
    (Scenario.world 0 0 false false false 104999 0 (S754_zero false))
    (show_status (Scenario.stick 2048)
       (Scenario.world 0 0 false false false 5000 0 (S754_zero false))
       status_boot) =
    show_status (Scenario.stick 2048)
      (Scenario.world 0 0 false false false 5000 0 (S754_zero false))
      status_boot.
Proof.
  destruct (status_line_is_rate_limited (Scenario.stick 2048)
              (Scenario.world 0 0 false false false 5000 0 (S754_zero false))
              status_boot) as [Hshown Hquiet].
  - simpl. lia.
  - vm_compute. discriminate.
  - simpl. lia.
  - split; [exact Hshown|]. apply Hquiet. simpl. reflexivity.
Defined.

Lemma melody_plays_in_order_witness :
  exists w',
    run Scenario.catalog
      [(0, Scenario.stick 100); (10000, Scenario.stick 4000);
       (200000, Scenario.stick 2050); (100000, Scenario.stick 0);
       (300000, Scenario.stick 2048)]
      (Scenario.world 0 0 true false false 0 0 (S754_zero false)) = Some w' /\
    played_in_order Scenario.three_notes w'.
Proof.
  destruct (melody_plays_in_order Scenario.catalog 0 Scenario.three_notes
              eq_refl (conj eq_refl eq_refl)
              [(0, Scenario.stick 100); (10000, Scenario.stick 4000);
               (200000, Scenario.stick 2050); (100000, Scenario.stick 0);
               (300000, Scenario.stick 2048)]
              (Scenario.world 0 0 true false false 0 0 (S754_zero false))
              eq_refl eq_refl eq_refl eq_refl)
    as (w' & Hrun & _ & Horder).
  exists w'. split; [exact Hrun|exact Horder].
Defined.

Lemma map_value_stays_in_output_range_witness :
  JoystickPi.joystickPi_map_value 1000 0 4095 (-100) 100 = Some (-52) /\
  -100 <= -52 <= 100.
Proof.
  destruct (map_value_stays_in_output_range 1000 0 4095 (-100) 100)
    as [Hvalue Hrange].
  - lia.
  - lia.
  - lia.
  - lia.
  - lia.
  - vm_compute. split; [discriminate|reflexivity].
  - vm_compute. split; [discriminate|reflexivity].
  - split; [exact Hvalue|exact Hrange].
Defined.

Lemma map_value_is_monotone_witness :
  exists r r',
    JoystickPi.joystickPi_map_value 1000 0 4095 100 (-100) = Some r /\
    JoystickPi.joystickPi_map_value 3000 0 4095 100 (-100) = Some r' /\
    r' <= r.
Proof.
  destruct (map_value_is_monotone 1000 3000 0 4095 100 (-100))
    as (r & r' & Hr & Hr' & _ & Hreversed).
  - lia.
  - lia.
  - lia.
  - lia.
  - lia.
  - lia.
  - vm_compute. split; [discriminate|reflexivity].
  - vm_compute. split; [discriminate|reflexivity].
  - exists r, r'. split; [exact Hr|]. split; [exact Hr'|].
    apply Hreversed. lia.
Defined.

Lemma multiplier_covers_half_to_one_and_a_half_witness :
  Float32.is_finite (bend (Scenario.stick 1000)) = true /\
  (1 # 2 <= Float32.to_Q (bend (Scenario.stick 1000)) <= 3 # 2)%Q /\
  (Float32.to_Q (bend (Scenario.stick 1000))
   <= Float32.to_Q (bend (Scenario.stick 3000)))%Q.
Proof.
  destruct (multiplier_covers_half_to_one_and_a_half (Scenario.stick 1000))
    as (Hfinite & Hrange & _ & _ & Hgrows).
  - simpl. lia.
  - split; [exact Hfinite|]. split; [exact Hrange|].
    apply Hgrows. simpl. lia.
Defined.

Lemma play_melody_blocks_for_its_durations_witness :
  exists cs,
    BuzzerPi.play_melody 125000000 21 [440; 0; 880] [200; 100; 300]
      BuzzerPi.CLK_DIV_DEFAULT 3 = Some cs /\
    BuzzerPi.blocking_ms cs = 600 /\
    base.length (BuzzerPi.programmed_wraps cs) = 2%nat /\
    BuzzerPi.left_silent 21 cs.
Proof.
  destruct (play_melody_blocks_for_its_durations 125000000 21 [440; 0; 880]
              [200; 100; 300] BuzzerPi.CLK_DIV_DEFAULT 3)
    as (cs & Hrun & Hms & _ & Hcount & Hsilent).
  - simpl. lia.
  - simpl. lia.
  - exists cs. split; [exact Hrun|]. split; [exact Hms|].
    split; [exact Hcount|apply Hsilent].
Defined.

Lemma wrap_is_exact_in_the_audible_range_witness :
  BuzzerPi.calculate_wrap 125000000 440 BuzzerPi.CLK_DIV_DEFAULT = 2271 /\
  (2271 + 1) * 440 <= 1000000 < (2271 + 2) * 440.
Proof.
  destruct (wrap_is_exact_in_the_audible_range 440) as [Hwrap Hperiod].
  - lia.
  - split; [exact Hwrap|]. apply (Hperiod ltac:(lia)).
Defined.

End FurtherInstances.
